(** * dae-cpp: solver options, Jacobian helpers and solution managers

    A shallow embedding of the support code around the BDF time integrator:
    [SolverOptions] (solver_options.h / solver_options.cpp), the Jacobian
    helper classes [JacobianMatrixShape] and [JacobianAutomatic], the
    right-hand side of the unit test [TEST(RHS, Definition)] and the solution
    managers [SolutionManager], [SolutionHolder] and [Solution].  The time
    integration driver, of which the sources only declare the entry point,
    is modelled after the specification.

    Conventions.
    - A C++ [double] is a binary64 primitive float ([PrimFloat.float]); the
      comparisons [<], [==] are [PrimFloat.ltb], [PrimFloat.eqb] and follow
      IEEE 754 (every comparison with a NaN is false).
    - [int], [MKL_INT] and [int_type] values are integers in [Z]; the code
      modelled here only stores and compares them, it does no arithmetic
      that could leave the range of the C++ type.
    - A [std::vector] is a list; [v[i] = a] is stdpp's [<[i:=a]> v] and
      [emplace_back] appends at the end. *)

From Stdlib Require Import ZArith List Bool Lia Permutation Sorted Ascii.
From Stdlib Require Import Floats.
From stdpp Require Import base list strings sorting.
From Equations Require Import Equations.

Set Warnings "-inexact-float".
Local Open Scope Z_scope.

(** [typedef std::vector<float_type> state_type] (typedefs.h); the later
    headers call the same type [state_vector]. *)
Abbreviation state_type := (list float).
Abbreviation state_vector := (list float).

(** ** Solver options *)

Module Options.

(** Modelled from the spec: the macro [BDF_MAX_ORDER] is used by
    [SolverOptions::check_options] but defined in none of the sources; the
    specification fixes the admissible BDF orders as 1 to 6. *)
Definition BDF_MAX_ORDER : Z := 6.

(** [class SolverOptions].  The header shows [atol] and [dt_init]; the
    members read and written by solver_options.cpp are the remaining
    fields. *)
Record SolverOptions := mkSolverOptions {
  atol : float;                  (* Absolute tolerance *)
  dt_init : float;               (* Initial time step *)
  bdf_order : Z;
  preconditioned_CGS : Z;
  refinement_steps : Z;
  parallel_fact_control : Z;
  parallel_solve_control : Z
}.

Section DefaultConstruction.
(** In-class initialisers of the members whose declarations are not part
    of the header at hand. *)
Variables (bdf_order0 preconditioned_CGS0 refinement_steps0
           parallel_fact_control0 parallel_solve_control0 : Z).

(** [SolverOptions() = default]: every member takes its in-class
    initialiser. *)
Definition SolverOptions_default : SolverOptions :=
  {| atol := 1.0e-6;
     dt_init := 0.1;
     bdf_order := bdf_order0;
     preconditioned_CGS := preconditioned_CGS0;
     refinement_steps := refinement_steps0;
     parallel_fact_control := parallel_fact_control0;
     parallel_solve_control := parallel_solve_control0 |}.
End DefaultConstruction.

(** [void SolverOptions::set_iparm_for_pardiso(MKL_INT *iparm)].  [iparm]
    points to the caller's array; writing [iparm[i]] past its end is
    undefined in C++ and leaves the list as it is here. *)
Definition set_iparm_for_pardiso (o : SolverOptions) (iparm : list Z) : list Z :=
  let iparm := fold_left (fun ip i => <[i:=0]> ip) (seq 0 64) iparm in
  let iparm := <[0%nat:=1]> iparm in
  let iparm := <[1%nat:=3]> iparm in
  let iparm := <[3%nat:=o.(preconditioned_CGS)]> iparm in
  let iparm := <[4%nat:=0]> iparm in
  let iparm := <[5%nat:=0]> iparm in
  let iparm := <[6%nat:=0]> iparm in
  let iparm := <[7%nat:=o.(refinement_steps)]> iparm in
  let iparm := <[9%nat:=13]> iparm in
  let iparm := <[10%nat:=1]> iparm in
  let iparm := <[11%nat:=0]> iparm in
  let iparm := <[12%nat:=1]> iparm in
  let iparm := <[13%nat:=0]> iparm in
  let iparm := <[14%nat:=0]> iparm in
  let iparm := <[15%nat:=0]> iparm in
  let iparm := <[16%nat:=0]> iparm in
  let iparm := <[17%nat:=0]> iparm in
  let iparm := <[18%nat:=0]> iparm in
  let iparm := <[19%nat:=0]> iparm in
  let iparm := <[23%nat:=o.(parallel_fact_control)]> iparm in
  let iparm :=
    if nth 23 iparm 0 =? 1
    then <[12%nat:=0]> (<[10%nat:=0]> iparm)
    else iparm in
  let iparm := <[24%nat:=o.(parallel_solve_control)]> iparm in
  let iparm := <[26%nat:=0]> iparm in
  let iparm := <[27%nat:=0]> iparm in
  let iparm := <[29%nat:=0]> iparm in
  let iparm := <[30%nat:=0]> iparm in
  let iparm := <[33%nat:=0]> iparm in
  let iparm := <[34%nat:=0]> iparm in
  <[59%nat:=0]> iparm.

(** [void SolverOptions::check_options()] *)
Definition check_options (o : SolverOptions) : SolverOptions :=
  if (o.(bdf_order) <? 1) || (o.(bdf_order) >? BDF_MAX_ORDER)
  then
    (* fall back to BDF-1 *)
    {| atol := o.(atol);
       dt_init := o.(dt_init);
       bdf_order := 1;
       preconditioned_CGS := o.(preconditioned_CGS);
       refinement_steps := o.(refinement_steps);
       parallel_fact_control := o.(parallel_fact_control);
       parallel_solve_control := o.(parallel_solve_control) |}
  else o.

End Options.

(** ** The right-hand side of the unit test *)

Module RHS.

(** [TestRHS::operator()] of [TEST(RHS, Definition)]:
    [f[0] = x[0]; f[1] = x[1] * t;].  The test's [EXPECT_EQ(x.size(), 2)]
    only records a failure and does not change the control flow.  Reading
    [x[i]] past the end is undefined in C++; the model reads NaN there. *)
Definition TestRHS (f : state_type) (x : state_type) (t : float) : state_type :=
  let f := <[0%nat := nth 0 x nan]> f in
  <[1%nat := (nth 1 x nan * t)%float]> f.

End RHS.

(** ** Jacobian helpers *)

Module Jacobian.

(** Modelled from the spec: the class [sparse_matrix] (sparse-matrix.hpp) is
    not among the sources.  The specification gives its insertion protocol,
    [insert(row, col, value)] (written [J(i, j, val)] in the code) and
    [reserve(count)], and describes it as an append-only triplet collection.
    A matrix under construction is the sequence of protocol calls it has
    received, oldest first. *)
Inductive sparse_matrix_call : Type :=
| SM_insert (i j : Z) (v : float)
| SM_reserve (n : Z).

Abbreviation sparse_matrix := (list sparse_matrix_call).

(** Modelled from the spec: [sparse_matrix::operator()(i, j, val)], the
    insertion of one entry. *)
Definition sm_insert (J : sparse_matrix) (i j : Z) (v : float) : sparse_matrix :=
  J ++ [SM_insert i j v].

(** Modelled from the spec: [sparse_matrix::reserve(count)]. *)
Definition sm_reserve (J : sparse_matrix) (n : Z) : sparse_matrix :=
  J ++ [SM_reserve n].

(** The (row, column, value) triplets held by a matrix, in insertion order. *)
Definition sm_entries (J : sparse_matrix) : list (Z * Z * float) :=
  flat_map (fun c => match c with
                     | SM_insert i j v => [(i, j, v)]
                     | SM_reserve _ => []
                     end) J.

(** The arguments of the [reserve] calls a matrix has received. *)
Definition sm_reserves (J : sparse_matrix) : list Z :=
  flat_map (fun c => match c with
                     | SM_insert _ _ _ => []
                     | SM_reserve n => [n]
                     end) J.

Section WithRHS.

(** The template parameter [RHS]. *)
Context {RHS : Type}.

(** [autodiff::derivative(f, wrt(x_[col]), at(x_, t, row))] where [f] calls
    [rhs.equations(x_, t, row)]: the differentiation facility is external.
    [x_] is the element-wise copy of [x] into dual numbers. *)
Variable derivative : RHS -> state_vector -> float -> Z -> Z -> float.

(** [autodiff::jacobian(f, wrt(x_), at(x_, t))] where [f] calls
    [rhs(f_, x_, t)]: the dense matrix [jac], read as [jac(i, j)]. *)
Variable jacobian : RHS -> state_vector -> float -> Z -> Z -> float.

(** The macro [DAECPP_SPARSE_MATRIX_ELEMENT_TOLERANCE], defined in none of
    the sources. *)
Variable DAECPP_SPARSE_MATRIX_ELEMENT_TOLERANCE : float.

(** [template <class RHS> class JacobianMatrixShape] *)
Record JacobianMatrixShape := mkShape {
  m_Jn : list (Z * Z);        (* Array of non-zero elements *)
  m_N_elements : Z;           (* An estimation of the array size *)
  shape_rhs : RHS             (* m_rhs: the RHS for differentiation *)
}.

(** [explicit JacobianMatrixShape(RHS rhs)] *)
Definition JacobianMatrixShape_new (rhs : RHS) : JacobianMatrixShape :=
  {| m_Jn := []; m_N_elements := 0; shape_rhs := rhs |}.

(** [void add_element(const int_type ind_i, const int_type ind_j)] *)
Definition add_element (s : JacobianMatrixShape) (ind_i ind_j : Z) : JacobianMatrixShape :=
  {| m_Jn := s.(m_Jn) ++ [(ind_i, ind_j)];
     m_N_elements := s.(m_N_elements);
     shape_rhs := s.(shape_rhs) |}.

(** [void add_element(const int_type ind_i, const std::vector<int_type> ind_j)] *)
Definition add_element_row (s : JacobianMatrixShape) (ind_i : Z) (ind_j : list Z)
  : JacobianMatrixShape :=
  fold_left (fun s j => add_element s ind_i j) ind_j s.

(** [inline void clear()] *)
Definition clear (s : JacobianMatrixShape) : JacobianMatrixShape :=
  {| m_Jn := []; m_N_elements := s.(m_N_elements); shape_rhs := s.(shape_rhs) |}.

(** [std::vector::max_size()] of [m_Jn], a constant of the implementation
    of the standard library. *)
Variable max_size : Z.




(** [JacobianMatrixShape::operator()(sparse_matrix &J, x, t)]: returns the
    matrix [J] and the object after the call. *)
Definition JacobianMatrixShape_call (s : JacobianMatrixShape)
    (J : sparse_matrix) (x : state_vector) (t : float)
  : sparse_matrix * JacobianMatrixShape :=
  (* Reserve memory *)
  let J := if s.(m_N_elements) =? 0 then J else sm_reserve J s.(m_N_elements) in
  (* Automatic differentiation of each element marked as non-zero *)
  let J := fold_left
             (fun J Jn => sm_insert J (fst Jn) (snd Jn)
                            (derivative s.(shape_rhs) x t (fst Jn) (snd Jn)))
             s.(m_Jn) J in
  (* Update sparse Jacobian matrix size estimation *)
  (J, {| m_Jn := s.(m_Jn);
         m_N_elements := Z.of_nat (length s.(m_Jn));
         shape_rhs := s.(shape_rhs) |}).

(** A declaration made by the user: one of the two [add_element] overloads. *)
Inductive declaration : Type :=
| Element (ind_i ind_j : Z)
| Row (ind_i : Z) (ind_j : list Z).

Definition declare (s : JacobianMatrixShape) (d : declaration) : JacobianMatrixShape :=
  match d with
  | Element i j => add_element s i j
  | Row i js => add_element_row s i js
  end.

(** The (row, column) positions a declaration stands for. *)
Definition declared_positions (d : declaration) : list (Z * Z) :=
  match d with
  | Element i j => [(i, j)]
  | Row i js => map (fun j => (i, j)) js
  end.

(** [template <class RHS> class JacobianAutomatic] *)
Record JacobianAutomatic := mkAutomatic {
  auto_rhs : RHS              (* m_rhs: the RHS for differentiation *)
}.

(** [JacobianAutomatic::operator()(sparse_matrix &J, x, t)] *)
Definition JacobianAutomatic_call (a : JacobianAutomatic)
    (J : sparse_matrix) (x : state_vector) (t : float) : sparse_matrix :=
  let size := Z.of_nat (length x) in
  (* Dense Jacobian matrix generated by autodiff *)
  let jac := jacobian a.(auto_rhs) x t in
  (* Convert dense matrix to sparse format *)
  fold_left
    (fun J j =>
       fold_left
         (fun J i =>
            let val := jac i j in
            if (DAECPP_SPARSE_MATRIX_ELEMENT_TOLERANCE <? abs val)%float
            then sm_insert J i j val
            else J)
         (seqZ 0 size) J)
    (seqZ 0 size) J.

End WithRHS.

End Jacobian.

(** ** Standard algorithms used by the solution managers *)

Module Std.

Section Algorithms.

(** The element type and its [operator<]. *)
Context {A : Type} (lt : A -> A -> bool).

(** The value read by [*it] when [it] is not dereferenceable; the searches
    below never read it. *)
Variable dflt : A.

(** [std::lower_bound(first, last, value)] on the range that starts at index
    [first] of [v] and has [count] elements:
    [while (count > 0) { step = count / 2; it = first + step;
       if ( *it < value ) { first = ++it; count -= step + 1; } else count = step; }
     return first;] *)
Equations? lower_bound_from (v : list A) (value : A) (first count : nat) : nat
  by wf count Nat.lt :=
  lower_bound_from v value first 0 := first;
  lower_bound_from v value first (S c) :=
    let step := Nat.div2 (S c) in
    let it := (first + step)%nat in
    if lt (nth it v dflt) value
    then lower_bound_from v value (S it) (S c - (step + 1))%nat
    else lower_bound_from v value first step.
Proof.
  - lia.
  - change (Nat.div2 (S c) < S c)%nat. apply Nat.lt_div2. lia.
Qed.

Definition lower_bound (v : list A) (value : A) : nat :=
  lower_bound_from v value 0 (length v).

(** [std::binary_search(first, last, value)]:
    [first = std::lower_bound(first, last, value);
     return first != last && !(value < *first);] *)
Definition binary_search (v : list A) (value : A) : bool :=
  let first := lower_bound v value in
  negb (first =? length v)%nat && negb (lt value (nth first v dflt)).

(** [std::sort(first, last)].  The standard leaves the algorithm open and
    only fixes the outcome: a rearrangement of the range in which no element
    is less than one before it.  The model inserts the elements one by one,
    each before the first element greater than it. *)
Fixpoint sort_insert (a : A) (l : list A) : list A :=
  match l with
  | [] => [a]
  | b :: l' => if lt a b then a :: l else b :: sort_insert a l'
  end.

Definition sort (l : list A) : list A := foldr sort_insert [] l.

(** The postcondition of [std::sort] and precondition of
    [std::binary_search]: no element is less than an earlier one. *)
Fixpoint sorted (l : list A) : Prop :=
  match l with
  | [] => True
  | a :: l' => Forall (fun b => lt b a = false) l' /\ sorted l'
  end.

End Algorithms.

End Std.

(** ** Solution managers *)

Module Manager.

(** [SolutionManager::operator()(const state_vector &x, const double t)]:
    does nothing by default and returns 0. *)
Definition SolutionManager_call (x : state_vector) (t : float) : Z := 0.

(** [struct SolutionHolder] *)
Record SolutionHolder := mkHolder {
  x : list state_vector;     (* Vector of solution vectors x *)
  t : list float             (* Vector of the corresponding solution times t *)
}.

(** The condition asserted at the entry of [SolutionHolder::print]. *)
Definition print_assertion (h : SolutionHolder) : Prop :=
  length h.(t) = length h.(x).

(** [class Solution].  The member [_sol] is a reference to a holder owned by
    the caller: the holder is passed to, and returned by, the functor. *)
Record Solution := mkSolution {
  _t_out : list float        (* Output times: a sorted copy *)
}.

(** [explicit Solution(SolutionHolder &sol, const std::vector<double> t_output = {})] *)
Definition Solution_new (t_output : list float) : Solution :=
  {| _t_out := if (0 <? length t_output)%nat
               then Std.sort PrimFloat.ltb t_output
               else t_output |}.

(** [_sol.x.emplace_back(x_); _sol.t.emplace_back(t_);] *)
Definition recorded (_sol : SolutionHolder) (x_ : state_vector) (t_ : float)
  : SolutionHolder :=
  {| x := _sol.(x) ++ [x_]; t := _sol.(t) ++ [t_] |}.

(** [int Solution::operator()(const state_vector &x_, const double t_)]:
    the returned integer and the holder after the call. *)
Definition Solution_call (s : Solution) (_sol : SolutionHolder)
    (x_ : state_vector) (t_ : float) : Z * SolutionHolder :=
  if (0 <? length s.(_t_out))%nat
  then
    if negb (Std.binary_search PrimFloat.ltb nan s.(_t_out) t_)
    then (0, _sol)
    else (0, recorded _sol x_ t_)
  else (0, recorded _sol x_ t_).

(** The holder after the functor has been invoked on each step of a run, in
    order. *)
Definition Solution_calls (s : Solution) (_sol : SolutionHolder)
    (steps : list (state_vector * float)) : SolutionHolder :=
  fold_left (fun h step => (Solution_call s h step.1 step.2).2) steps _sol.

End Manager.

(** ** The time integration driver *)

Module Driver.

(** Modelled from the spec: [Solver::operator()] is declared in [class
    Solver] but its body, the Time Integration Driver, and the BDF
    Step/Order Controller it invokes are not among the sources.  The
    definitions below follow sections 4.5 and 4.6 of the specification.  One
    attempt of the Controller (Predict, Correct, Evaluate-Error) is an
    arbitrary function of the Controller's own state and of the last
    accepted state and time; it accepts a new state and time, rejects
    (the step is retried with a smaller step or order), or fails for good. *)
Inductive attempt_result (CS : Type) : Type :=
| Accept (x : state_vector) (t : float) (cs : CS)
| Reject (cs : CS)
| Fatal (cs : CS).

Arguments Accept {CS} x t cs.
Arguments Reject {CS} cs.
Arguments Fatal {CS} cs.

(** What an observer of a run sees, in order. *)
Inductive event : Type :=
| EvReject                                        (* a rejected attempt *)
| EvAccept (x : state_vector) (t : float)         (* an accepted step *)
| EvCallback (x : state_vector) (t : float) (r : Z).
                                   (* a Solution Manager call and its result *)

(** How a run ended; [Running] is a run cut short by the bound the model
    puts on the number of steps. *)
Inductive status : Type :=
| Completed
| CallerStop
| Failure
| Running.

(** The outcome of one call of the Controller. *)
Inductive step_result (CS : Type) : Type :=
| StepOk (x : state_vector) (t : float) (cs : CS)
| StepFatal (cs : CS).

Arguments StepOk {CS} x t cs.
Arguments StepFatal {CS} cs.

(** The outcome of a run: its status, the last accepted state and time, the
    Solution Manager's state and the events of the run. *)
Record result (MS : Type) : Type := mkResult {
  res_status : status;
  res_x : state_vector;
  res_t : float;
  res_manager : MS;
  res_trace : list event
}.

Arguments mkResult {MS}.
Arguments res_status {MS}.
Arguments res_x {MS}.
Arguments res_t {MS}.
Arguments res_manager {MS}.
Arguments res_trace {MS}.

Section Run.

(** The Controller's state (step history, order, step size, counters) and
    the Solution Manager's state. *)
Context {CS MS : Type}.

Variable attempt : CS -> state_vector -> float -> attempt_result CS.

(** The Solution Manager callback, [(state, time) -> integer]. *)
Variable callback : MS -> state_vector -> float -> Z * MS.

(** The bound on the retries of one step and the end time of the run. *)
Variable max_retries : nat.
Variable t1 : float.

(** Modelled from the spec: the BDF Step/Order Controller, absent from the
    sources.  Section 4.5: retry rejected attempts up to the bound;
    exceeding it is fatal.  Returns the events of the step as well. *)
Fixpoint controller (retries : nat) (cs : CS) (x : state_vector) (t : float)
  : step_result CS * list event :=
  match attempt cs x t with
  | Accept x' t' cs' => (StepOk x' t' cs', [EvAccept x' t'])
  | Fatal cs' => (StepFatal cs', [])
  | Reject cs' =>
      match retries with
      | O => (StepFatal cs', [EvReject])
      | S retries' =>
          let '(r, tr) := controller retries' cs' x t in (r, EvReject :: tr)
      end
  end.

(** Modelled from the spec: the body of [Solver::operator()], absent from
    the sources.  Section 4.6: while the current time is before [t1], invoke
    the Controller for one step; on success invoke the callback with the new
    state and time and stop at once when it returns non-zero; on a fatal
    failure stop with the last accepted state and time.  [fuel] bounds the
    number of iterations of the loop. *)
Fixpoint driver (fuel : nat) (cs : CS) (ms : MS) (x : state_vector) (t : float)
  : result MS :=
  match fuel with
  | O => mkResult Running x t ms []
  | S fuel' =>
      if (t <? t1)%float
      then
        match controller max_retries cs x t with
        | (StepOk x' t' cs', tr) =>
            let '(r, ms') := callback ms x' t' in
            if r =? 0
            then
              let rest := driver fuel' cs' ms' x' t' in
              mkResult rest.(res_status) rest.(res_x) rest.(res_t)
                       rest.(res_manager)
                       (tr ++ EvCallback x' t' r :: rest.(res_trace))
            else mkResult CallerStop x' t' ms' (tr ++ [EvCallback x' t' r])
        | (StepFatal cs', tr) => mkResult Failure x t ms tr
        end
      else mkResult Completed x t ms []
  end.

End Run.






End Driver.

(** ** The order of binary64 values *)

Module FloatOrder.

(** The position of a (non-NaN) binary64 value on the extended real line as
    a triple compared lexicographically: its class, from minus infinity to
    plus infinity, then exponent and mantissa, negated for negative values.
    Both zeros get the same position. *)
Definition sf_key (x : spec_float) : Z * Z * Z :=
  match x with
  | S754_nan => (0, 0, 0)
  | S754_zero _ => (0, 0, 0)
  | S754_infinity s => (if s then -2 else 2, 0, 0)
  | S754_finite s m e => if s then (-1, - e, - Z.pos m) else (1, e, Z.pos m)
  end.

Definition key_lt (k1 k2 : Z * Z * Z) : Prop :=
  k1.1.1 < k2.1.1
  \/ (k1.1.1 = k2.1.1
      /\ (k1.1.2 < k2.1.2 \/ (k1.1.2 = k2.1.2 /\ k1.2 < k2.2))).

(** [std::isnan] is false. *)
Definition not_nan (a : float) : Prop := is_nan a = false.

End FloatOrder.

(** ** Printing a solution holder *)

Module Printing.
Import Manager.

(** One insertion into [std::cout]: a string literal, a character, a
    [std::size_t] or a [double].  How the stream renders a number as text is
    left to the stream. *)
Inductive output : Type :=
| OutString (s : string)
| OutChar (c : ascii)
| OutSize (n : nat)
| OutDouble (d : float).

(** The macro [ASSERT] is defined in none of the sources: a call whose
    assertion fails ends as [AssertionFailed], whatever the macro then does;
    otherwise the call returns after the insertions [out]. *)
Inductive print_result : Type :=
| AssertionFailed
| Printed (out : list output).

(** The vector [ind_out] of [SolutionHolder::print], for [N = x[0].size()]:
    the user's indices below [N] when the user gave any, else [0 .. N-1]
    written into a vector resized to [N]. *)
Definition ind_out (N : nat) (ind : list nat) : list nat :=
  if (0 <? length ind)%nat
  then
    fold_left (fun ind_out i => if (i <? N)%nat then ind_out ++ [i] else ind_out)
              ind []
  else
    fold_left (fun ind_out i => <[i:=i]> ind_out) (seq 0 N) (replicate N 0%nat).

(** [void SolutionHolder::print(const std::vector<std::size_t> &ind = {}) const].
    Reading [x[i][i_out]] in a row shorter than [x[0]] is undefined in C++;
    the model reads NaN there. *)
Definition print (h : SolutionHolder) (ind : list nat) : print_result :=
  if negb (length h.(t) =? length h.(x))%nat then AssertionFailed
  else if (length h.(t) =? 0)%nat then Printed []    (* nothing to print *)
  else
    (* Solution vector size *)
    let N := length (nth 0 h.(x) []) in
    let ind_out := ind_out N ind in
    (* Header *)
    let out := [OutString "Time"] in
    let out := fold_left
                 (fun out i => out ++ [OutString (String "009" "x["); OutSize i;
                                       OutString "]"])
                 ind_out out in
    let out := out ++ [OutChar "010"] in
    (* Loop over all rows *)
    let out := fold_left
                 (fun out i =>
                    let out := out ++ [OutDouble (nth i h.(t) nan)] in
                    let out := fold_left
                                 (fun out i_out =>
                                    out ++ [OutChar "009";
                                            OutDouble (nth i_out (nth i h.(x) []) nan)])
                                 ind_out out in
                    out ++ [OutChar "010"])
                 (seq 0 (length h.(t))) out in
    Printed out.





End Printing.

(** ** The order of insertion into a sparse matrix *)

Module JacobianOrder.

(** Column-major order on (row, column, value) triplets: by column, then by
    row. *)
Definition column_major (e1 e2 : Z * Z * float) : Prop :=
  e1.1.2 < e2.1.2 \/ (e1.1.2 = e2.1.2 /\ e1.1.1 < e2.1.1).

End JacobianOrder.

(** * Properties *)

(** ** Solver options *)

Module OptionsProps.
Import Options.

(** Zero-filling [n] cells from index [k] on. *)
Lemma zero_fill_from (n k : nat) (pre l : list Z) :
  length pre = k -> length l = n ->
  fold_left (fun ip i => <[i:=0]> ip) (seq k n) (pre ++ l)
  = pre ++ replicate n 0.
Proof.
  revert k pre l. induction n as [|n IH]; intros k pre l Hpre Hl.
  - destruct l; [reflexivity | discriminate].
  - destruct l as [|a l]; [discriminate|]. simpl in Hl.
    cbn [seq fold_left].
    rewrite insert_app_r_alt by lia.
    replace (k - length pre)%nat with 0%nat by lia. cbn [insert list_insert].
    change (pre ++ 0 :: l) with (pre ++ [0] ++ l). rewrite app_assoc.
    rewrite (IH (S k) (pre ++ [0]) l).
    + rewrite <- app_assoc. reflexivity.
    + rewrite length_app. simpl. lia.
    + lia.
Qed.

Lemma zero_fill (l : list Z) :
  fold_left (fun ip i => <[i:=0]> ip) (seq 0 (length l)) l
  = replicate (length l) 0.
Proof. exact (zero_fill_from (length l) 0 [] l eq_refl eq_refl). Qed.

(** C1: for every integer [bdf_order], [check_options] keeps it when it lies
    in [[1, BDF_MAX_ORDER]] and sets it to exactly 1 otherwise, leaving every
    other option alone; orders 0 and 99 both become 1. *)
Theorem check_options_bdf_order :
  (forall o : SolverOptions,
     bdf_order (check_options o)
     = (if (1 <=? bdf_order o) && (bdf_order o <=? BDF_MAX_ORDER)
        then bdf_order o else 1)
     /\ check_options o
        = mkSolverOptions (atol o) (dt_init o) (bdf_order (check_options o))
            (preconditioned_CGS o) (refinement_steps o)
            (parallel_fact_control o) (parallel_solve_control o))
  /\ (forall a d c r p q,
        bdf_order (check_options (mkSolverOptions a d 0 c r p q)) = 1
        /\ bdf_order (check_options (mkSolverOptions a d 99 c r p q)) = 1).
Proof.
  split.
  - intros [a d b c r p q]. unfold check_options, BDF_MAX_ORDER. cbn [bdf_order].
    destruct (Z.ltb_spec b 1), (Z.gtb_spec b 6), (Z.leb_spec 1 b), (Z.leb_spec b 6);
      cbn; try lia; split; reflexivity.
  - intros. split; reflexivity.
Qed.

(** C5: a default-constructed [SolverOptions] has [atol = 1.0e-6] and
    [dt_init = 0.1], whatever the initialisers of the other members. *)
Theorem default_atol_dt_init (b c r p q : Z) :
  atol (SolverOptions_default b c r p q) = 1.0e-6%float
  /\ dt_init (SolverOptions_default b c r p q) = 0.1%float.
Proof. split; reflexivity. Qed.

(** C6: on an array of 64 entries [set_iparm_for_pardiso] writes every
    entry, so that the outcome does not depend on the previous contents:
    [iparm[7]] is [refinement_steps], [iparm[23]] is
    [parallel_fact_control], and [iparm[10]] and [iparm[12]] are both 0 when
    [parallel_fact_control] is 1 and both 1 otherwise. *)
Theorem set_iparm_for_pardiso_spec (o : SolverOptions) (iparm : list Z) :
  length iparm = 64%nat ->
  let s := if parallel_fact_control o =? 1 then 0 else 1 in
  set_iparm_for_pardiso o iparm
  = [1; 3; 0; preconditioned_CGS o; 0; 0; 0; refinement_steps o;
     0; 13; s; 0; s; 0; 0; 0;
     0; 0; 0; 0; 0; 0; 0; parallel_fact_control o;
     parallel_solve_control o; 0; 0; 0; 0; 0; 0; 0;
     0; 0; 0; 0; 0; 0; 0; 0;
     0; 0; 0; 0; 0; 0; 0; 0;
     0; 0; 0; 0; 0; 0; 0; 0;
     0; 0; 0; 0; 0; 0; 0; 0]
  /\ set_iparm_for_pardiso o iparm !! 7%nat = Some (refinement_steps o)
  /\ set_iparm_for_pardiso o iparm !! 23%nat = Some (parallel_fact_control o)
  /\ set_iparm_for_pardiso o iparm !! 10%nat = Some s
  /\ set_iparm_for_pardiso o iparm !! 12%nat = Some s
  /\ (s = 0 <-> parallel_fact_control o = 1)
  /\ (s = 1 <-> parallel_fact_control o <> 1).
Proof.
  intros Hlen s.
  assert (Hfill : fold_left (fun ip i => <[i:=0]> ip) (seq 0 64) iparm
                  = replicate 64 0).
  { rewrite <- Hlen. apply zero_fill. }
  unfold set_iparm_for_pardiso. rewrite Hfill. subst s.
  cbn -[Z.eqb].
  destruct (Z.eqb_spec (parallel_fact_control o) 1) as [E|E];
    cbn; repeat split; try reflexivity; try congruence; try lia.
Qed.

(** The array of the example: 64 entries of stale data. *)
Lemma set_iparm_for_pardiso_witness :
  set_iparm_for_pardiso (mkSolverOptions 1.0e-6 0.1 2 0 2 1 0) (replicate 64 7)
    !! 10%nat = Some 0.
Proof.
  pose proof (set_iparm_for_pardiso_spec
                (mkSolverOptions 1.0e-6 0.1 2 0 2 1 0) (replicate 64 7) eq_refl) as H.
  exact (proj1 (proj2 (proj2 (proj2 H)))).
Defined.

End OptionsProps.

(** ** The right-hand side of the unit test *)

Module RHSProps.
Import RHS.

(** C7: for [f(x,t) = [x[0], x[1]*t]] and [x = [4, 6]] the call leaves
    [f = [4, 6*t]], of length 2, whatever the two previous entries of [f]
    and whatever [t]; at [t = 10] this is [[4, 60]]. *)
Theorem TestRHS_spec (f : state_type) (t : float) :
  length f = 2%nat ->
  TestRHS f [4; 6]%float t = [4; 6 * t]%float
  /\ length (TestRHS f [4; 6]%float t) = 2%nat
  /\ TestRHS f [4; 6]%float 10 = [4; 60]%float.
Proof.
  intros Hf.
  destruct f as [|f0 [|f1 [|f2 f]]]; try discriminate.
  repeat split; reflexivity.
Qed.

(** The test itself: [state_type f(2)] is zero-initialised and [t = 10]. *)
Lemma TestRHS_witness :
  TestRHS [0; 0]%float [4; 6]%float 10 = [4; 60]%float.
Proof.
  exact (proj2 (proj2 (TestRHS_spec [0; 0]%float 10%float eq_refl))).
Defined.

End RHSProps.

(** ** Jacobian helpers *)

Module JacobianProps.
Import Jacobian.

Section WithRHS.

Context {RHS : Type}.
Variable derivative : RHS -> state_vector -> float -> Z -> Z -> float.
Variable jacobian : RHS -> state_vector -> float -> Z -> Z -> float.
Variable TOL : float.

(** A loop that appends to [J] appends the concatenation of what each
    iteration appends. *)
Lemma fold_left_append {B C : Type} (g : B -> list C) (l : list B) (J : list C) :
  fold_left (fun J b => J ++ g b) l J = J ++ (l ≫= g).
Proof.
  revert J. induction l as [|b l IH]; intros J; cbn.
  - rewrite app_nil_r. reflexivity.
  - rewrite IH, <- app_assoc. reflexivity.
Qed.

Lemma fold_left_ext {B C : Type} (f g : C -> B -> C) (l : list B) (c : C) :
  (forall c b, f c b = g c b) -> fold_left f l c = fold_left g l c.
Proof.
  intros E. revert c. induction l as [|b l IH]; intros c; cbn; [reflexivity|].
  rewrite E. apply IH.
Qed.

Lemma bind_singleton_map {B C : Type} (g : B -> C) (l : list B) :
  l ≫= (fun b => [g b]) = map g l.
Proof. induction l as [|b l IH]; cbn; [reflexivity|]. rewrite IH. reflexivity. Qed.

Lemma map_bind {B C D : Type} (f : C -> D) (g : B -> list C) (l : list B) :
  map f (l ≫= g) = l ≫= (fun b => map f (g b)).
Proof.
  induction l as [|b l IH]; cbn; [reflexivity|].
  rewrite map_app, IH. reflexivity.
Qed.

Lemma m_Jn_add_element_row (s : JacobianMatrixShape (RHS:=RHS)) (i : Z) (js : list Z) :
  m_Jn (add_element_row s i js) = m_Jn s ++ map (fun j => (i, j)) js
  /\ m_N_elements (add_element_row s i js) = m_N_elements s
  /\ shape_rhs (add_element_row s i js) = shape_rhs s.
Proof.
  unfold add_element_row. revert s.
  induction js as [|j js IH]; intros s; cbn.
  - rewrite app_nil_r. auto.
  - destruct (IH (add_element s i j)) as (E1 & E2 & E3).
    rewrite E1, E2, E3. cbn. rewrite <- app_assoc. auto.
Qed.

(** Declaring positions appends them to [m_Jn], in order, and touches
    neither the size hint nor the stored right-hand side. *)
Lemma m_Jn_declare (ds : list declaration) (s : JacobianMatrixShape (RHS:=RHS)) :
  m_Jn (fold_left declare ds s) = m_Jn s ++ (ds ≫= declared_positions)
  /\ m_N_elements (fold_left declare ds s) = m_N_elements s
  /\ shape_rhs (fold_left declare ds s) = shape_rhs s.
Proof.
  revert s. induction ds as [|d ds IH]; intros s; cbn.
  - rewrite app_nil_r. auto.
  - destruct (IH (declare s d)) as (E1 & E2 & E3). rewrite E1, E2, E3.
    destruct d as [i j | i js]; cbn [declare declared_positions].
    + cbn. rewrite <- app_assoc. auto.
    + destruct (m_Jn_add_element_row s i js) as (F1 & F2 & F3).
      rewrite F1, F2, F3, <- app_assoc. auto.
Qed.

Lemma sm_entries_app (J K : sparse_matrix) :
  sm_entries (J ++ K) = sm_entries J ++ sm_entries K.
Proof. apply flat_map_app. Qed.

Lemma sm_reserves_app (J K : sparse_matrix) :
  sm_reserves (J ++ K) = sm_reserves J ++ sm_reserves K.
Proof. apply flat_map_app. Qed.

Lemma sm_entries_inserts {B : Type} (g : B -> Z * Z * float) (l : list B) :
  sm_entries (map (fun b => SM_insert (g b).1.1 (g b).1.2 (g b).2) l) = map g l.
Proof.
  induction l as [|b l IH]; cbn; [reflexivity|].
  change (sm_entries (map (λ b0 : B, SM_insert (g b0).1.1 (g b0).1.2 (g b0).2) l))
    with (sm_entries (map (fun b => SM_insert (g b).1.1 (g b).1.2 (g b).2) l)) in IH.
  unfold sm_entries in IH. rewrite IH. destruct (g b) as [[i j] v]. reflexivity.
Qed.

Lemma sm_reserves_inserts {B : Type} (g : B -> Z * Z * float) (l : list B) :
  sm_reserves (map (fun b => SM_insert (g b).1.1 (g b).1.2 (g b).2) l) = [].
Proof. induction l as [|b l IH]; cbn; [reflexivity|]. exact IH. Qed.

(** C3: let positions be declared through [add_element] (either overload)
    on a [JacobianMatrixShape] object.  A call of [operator()] then inserts
    into [J] exactly one entry per declared position, in declaration order,
    with the derivative computed for that position, and nothing else; it
    calls [J.reserve] once, with the previous size hint and before the
    insertions, when that hint is non-zero and not at all when it is zero;
    afterwards the hint is the number of declared positions and the
    declared list is unchanged. *)
Theorem JacobianMatrixShape_call_spec
    (s0 : JacobianMatrixShape (RHS:=RHS)) (ds : list declaration)
    (J : sparse_matrix) (x : state_vector) (t : float) :
  let s := fold_left declare ds s0 in
  let positions := m_Jn s0 ++ (ds ≫= declared_positions) in
  let hint := m_N_elements s0 in
  let J' := (JacobianMatrixShape_call derivative s J x t).1 in
  let s' := (JacobianMatrixShape_call derivative s J x t).2 in
  m_Jn s = positions
  /\ J' = J ++ (if hint =? 0 then [] else [SM_reserve hint])
            ++ map (fun p => SM_insert p.1 p.2
                               (derivative (shape_rhs s0) x t p.1 p.2)) positions
  /\ map fst (sm_entries J') = map fst (sm_entries J) ++ positions
  /\ sm_reserves J' = sm_reserves J ++ (if hint =? 0 then [] else [hint])
  /\ m_N_elements s' = Z.of_nat (length positions)
  /\ m_Jn s' = positions.
Proof.
  intros s positions hint J' s'.
  destruct (m_Jn_declare ds s0) as (E1 & E2 & E3).
  fold s in E1, E2, E3. fold positions in E1. fold hint in E2.
  assert (HJ : J' = J ++ (if hint =? 0 then [] else [SM_reserve hint])
            ++ map (fun p => SM_insert p.1 p.2
                               (derivative (shape_rhs s0) x t p.1 p.2)) positions).
  { subst J'. unfold JacobianMatrixShape_call. cbn [fst].
    rewrite E1, E2, E3. unfold sm_insert.
    rewrite (fold_left_append
               (fun Jn => [SM_insert Jn.1 Jn.2 (derivative (shape_rhs s0) x t Jn.1 Jn.2)])).
    rewrite bind_singleton_map.
    destruct (hint =? 0); unfold sm_reserve; cbn [app];
      rewrite <- ?app_assoc; reflexivity. }
  split; [exact E1|]. split; [exact HJ|].
  pose (g := fun p : Z * Z => (p, derivative (shape_rhs s0) x t p.1 p.2)).
  assert (Hins : map (fun p => SM_insert p.1 p.2
                               (derivative (shape_rhs s0) x t p.1 p.2)) positions
                 = map (fun b => SM_insert (g b).1.1 (g b).1.2 (g b).2) positions)
    by reflexivity.
  repeat split.
  - rewrite HJ, Hins, !sm_entries_app, sm_entries_inserts, !map_app, map_map.
    cbn [g fst]. rewrite map_id.
    destruct (hint =? 0); reflexivity.
  - rewrite HJ, Hins, !sm_reserves_app, sm_reserves_inserts, app_nil_r.
    destruct (hint =? 0); reflexivity.
  - subst s'. unfold JacobianMatrixShape_call. cbn. rewrite E1. reflexivity.
  - subst s'. unfold JacobianMatrixShape_call. cbn. exact E1.
Qed.

(** The entries that [JacobianAutomatic::operator()] inserts for a dense
    matrix [jac] of size [N]: column by column, those above the tolerance. *)
Lemma JacobianAutomatic_call_unfold (a : JacobianAutomatic (RHS:=RHS))
    (J : sparse_matrix) (x : state_vector) (t : float) :
  JacobianAutomatic_call jacobian TOL a J x t
  = J ++ map (fun e => SM_insert e.1.1 e.1.2 e.2)
           (seqZ 0 (Z.of_nat (length x)) ≫= fun j =>
            seqZ 0 (Z.of_nat (length x)) ≫= fun i =>
            if (TOL <? abs (jacobian (auto_rhs a) x t i j))%float
            then [(i, j, jacobian (auto_rhs a) x t i j)] else []).
Proof.
  unfold JacobianAutomatic_call.
  set (N := Z.of_nat (length x)). set (jac := jacobian (auto_rhs a) x t).
  set (cell := fun j i => if (TOL <? abs (jac i j))%float
                          then [SM_insert i j (jac i j)] else []).
  rewrite (fold_left_ext _ (fun J j => J ++ (seqZ 0 N ≫= cell j))).
  2:{ intros J0 j.
      rewrite (fold_left_ext _ (fun J i => J ++ cell j i)).
      - apply fold_left_append.
      - intros J1 i. unfold cell, sm_insert.
        destruct (TOL <? abs (jac i j))%float; [reflexivity|].
        rewrite app_nil_r. reflexivity. }
  rewrite fold_left_append. f_equal.
  rewrite map_bind. apply list_bind_ext; [|reflexivity].
  intros j. rewrite map_bind. apply list_bind_ext; [|reflexivity].
  intros i. unfold cell. destruct (TOL <? abs (jac i j))%float; reflexivity.
Qed.

(** C2: for every [x] of size [N] and every [t], [JacobianAutomatic]'s
    [operator()] appends to [J] insertion calls only; [(i, j, val)] is
    inserted if and only if [i] and [j] are indices of the dense [N] by [N]
    Jacobian, [val] is its [(i, j)] entry and [|val| > TOL] strictly; no
    position is inserted twice. *)
Theorem JacobianAutomatic_call_spec (a : JacobianAutomatic (RHS:=RHS))
    (J : sparse_matrix) (x : state_vector) (t : float) :
  let N := Z.of_nat (length x) in
  let jac := jacobian (auto_rhs a) x t in
  exists inserted : list (Z * Z * float),
    JacobianAutomatic_call jacobian TOL a J x t
    = J ++ map (fun e => SM_insert e.1.1 e.1.2 e.2) inserted
    /\ sm_entries (JacobianAutomatic_call jacobian TOL a J x t)
       = sm_entries J ++ inserted
    /\ (forall i j v,
          (i, j, v) ∈ inserted
          <-> 0 <= i < N /\ 0 <= j < N /\ v = jac i j
              /\ (TOL <? abs v)%float = true)
    /\ NoDup (map fst inserted).
Proof.
  intros N jac.
  set (inserted := seqZ 0 N ≫= fun j => seqZ 0 N ≫= fun i =>
         if (TOL <? abs (jac i j))%float then [(i, j, jac i j)] else []).
  assert (Hin : forall i j v,
            (i, j, v) ∈ inserted
            <-> 0 <= i < N /\ 0 <= j < N /\ v = jac i j
                /\ (TOL <? abs v)%float = true).
  { intros i j v. unfold inserted. rewrite list_elem_of_bind. split.
    - intros (j' & Hc & Hj'). apply list_elem_of_bind in Hc as (i' & Hc & Hi').
      apply elem_of_seqZ in Hj', Hi'.
      destruct (TOL <? abs (jac i' j'))%float eqn:E.
      + apply list_elem_of_singleton in Hc. injection Hc as -> -> ->.
        repeat split; try lia. exact E.
      + inversion Hc.
    - intros (Hi & Hj & -> & E). exists j. split; [|apply elem_of_seqZ; lia].
      apply list_elem_of_bind. exists i. split; [|apply elem_of_seqZ; lia].
      rewrite E. apply list_elem_of_singleton. reflexivity. }
  exists inserted. split; [apply JacobianAutomatic_call_unfold|].
  split.
  { rewrite JacobianAutomatic_call_unfold, sm_entries_app. f_equal.
    fold N jac inserted.
    rewrite (sm_entries_inserts (fun e => e)). apply map_id. }
  split; [exact Hin|].
  apply NoDup_fmap_fst.
  - intros [i j] v1 v2 H1 H2. apply Hin in H1, H2.
    destruct H1 as (_ & _ & -> & _), H2 as (_ & _ & -> & _). reflexivity.
  - unfold inserted. apply NoDup_bind; [| |apply NoDup_seqZ].
    + intros j1 j2 [[i j] v] _ _ H1 H2.
      apply list_elem_of_bind in H1 as (i1 & H1 & _).
      apply list_elem_of_bind in H2 as (i2 & H2 & _).
      destruct (TOL <? abs (jac i1 j1))%float; [|inversion H1].
      destruct (TOL <? abs (jac i2 j2))%float; [|inversion H2].
      apply list_elem_of_singleton in H1, H2. congruence.
    + intros j _. apply NoDup_bind; [| |apply NoDup_seqZ].
      * intros i1 i2 [[i j'] v] _ _ H1 H2.
        destruct (TOL <? abs (jac i1 j))%float; [|inversion H1].
        destruct (TOL <? abs (jac i2 j))%float; [|inversion H2].
        apply list_elem_of_singleton in H1, H2. congruence.
      * intros i _. destruct (TOL <? abs (jac i j))%float.
        -- apply NoDup_singleton.
        -- apply NoDup_nil_2.
Qed.

End WithRHS.

(** A dense 2 by 2 Jacobian with one entry equal to the tolerance and one
    zero: only the two entries strictly above the tolerance are inserted,
    column by column. *)
Example JacobianAutomatic_call_example :
  JacobianAutomatic_call
    (fun (_ : unit) _ _ i j =>
       match i, j with
       | 0, 0 => 1 | 0, 1 => 1.0e-14 | 1, 1 => -2 | _, _ => 0
       end%float)
    1.0e-14%float (mkAutomatic tt) [] [4; 6]%float 0%float
  = [SM_insert 0 0 1; SM_insert 1 1 (-2)].
Proof. reflexivity. Qed.

(** Two calls on a shape with three declared positions, one of them
    declared twice: the first call reserves nothing, the second reserves
    the four entries counted by the first. *)
Example JacobianMatrixShape_call_example :
  let s := declare (declare (JacobianMatrixShape_new tt) (Element 0 0))
                   (Row 1 [0; 1; 0]) in
  let d := fun (_ : unit) (_ : state_vector) (_ : float) (i j : Z) =>
             if i =? j then 1%float else 2%float in
  let call1 := JacobianMatrixShape_call d s [] [4; 6]%float 0%float in
  let call2 := JacobianMatrixShape_call d call1.2 [] [4; 6]%float 0%float in
  call1.1 = [SM_insert 0 0 1; SM_insert 1 0 2; SM_insert 1 1 1; SM_insert 1 0 2]
  /\ m_N_elements call1.2 = 4
  /\ call2.1 = SM_reserve 4 :: call1.1.
Proof. repeat split; reflexivity. Qed.

End JacobianProps.

(** ** The order of binary64 values *)

Module FloatOrderProps.
Import FloatOrder.

Lemma SFltb_key (x y : spec_float) :
  x <> S754_nan -> y <> S754_nan ->
  SFltb x y = true <-> key_lt (sf_key x) (sf_key y).
Proof.
  intros Hx Hy. unfold SFltb, key_lt.
  destruct x as [[]|[]| |[] m1 e1], y as [[]|[]| |[] m2 e2]; try congruence; cbn;
    try (split; [discriminate | lia]); try (split; [reflexivity | lia]);
    try (split; [lia | reflexivity]).
  all: change (Pcompare m1 m2 Eq) with (Pos.compare m1 m2);
    destruct (Z.compare_spec e1 e2); cbn;
    try (split; [discriminate | lia]); try (split; [lia | reflexivity]);
    destruct (Pos.compare_spec m1 m2); cbn;
    try (split; [discriminate | lia]); try (split; [lia | reflexivity]).
Qed.

Lemma SFeqb_key (x y : spec_float) :
  x <> S754_nan -> y <> S754_nan ->
  SFeqb x y = true <-> sf_key x = sf_key y.
Proof.
  intros Hx Hy. unfold SFeqb.
  destruct x as [[]|[]| |[] m1 e1], y as [[]|[]| |[] m2 e2]; try congruence; cbn;
    try (split; [discriminate | congruence]); try (split; [reflexivity | congruence]);
    try (split; [congruence | reflexivity]).
  all: change (Pcompare m1 m2 Eq) with (Pos.compare m1 m2);
    destruct (Z.compare_spec e1 e2); cbn;
    try (split; [discriminate | intros [= ]; lia]);
    destruct (Pos.compare_spec m1 m2); cbn;
    try (split; [discriminate | intros [= ]; lia]);
    subst; split; reflexivity.
Qed.

Lemma SFeqb_nan_l (y : spec_float) : SFeqb S754_nan y = false.
Proof. reflexivity. Qed.

Lemma SFltb_nan_l (y : spec_float) : SFltb S754_nan y = false.
Proof. reflexivity. Qed.

Lemma SFltb_nan_r (x : spec_float) : SFltb x S754_nan = false.
Proof. destruct x as [[]|[]| |[] m e]; reflexivity. Qed.

Lemma not_nan_spec (a : float) : not_nan a <-> Prim2SF a <> S754_nan.
Proof.
  unfold not_nan, is_nan. rewrite FloatAxioms.eqb_spec. split.
  - intros H E. rewrite E in H. discriminate.
  - intros H. apply negb_false_iff. apply SFeqb_key; auto.
Qed.

Lemma is_nan_spec (a : float) : is_nan a = true <-> Prim2SF a = S754_nan.
Proof.
  destruct (is_nan a) eqn:E.
  - split; [intros _|reflexivity].
    destruct (Prim2SF a) eqn:Ea; try reflexivity;
      exfalso; (assert (not_nan a) as N by (apply not_nan_spec; congruence));
      unfold not_nan in N; congruence.
  - split; [discriminate|]. intros Ea. apply not_nan_spec in E. contradiction.
Qed.

(** A NaN is less than nothing and nothing is less than it. *)
Lemma ltb_nan_l (a b : float) : is_nan a = true -> (a <? b)%float = false.
Proof. intros H. apply is_nan_spec in H. rewrite FloatAxioms.ltb_spec, H. apply SFltb_nan_l. Qed.

Lemma ltb_nan_r (a b : float) : is_nan b = true -> (a <? b)%float = false.
Proof. intros H. apply is_nan_spec in H. rewrite FloatAxioms.ltb_spec, H. apply SFltb_nan_r. Qed.

Lemma ltb_key (a b : float) :
  not_nan a -> not_nan b ->
  (a <? b)%float = true <-> key_lt (sf_key (Prim2SF a)) (sf_key (Prim2SF b)).
Proof.
  intros Ha Hb. rewrite FloatAxioms.ltb_spec. apply SFltb_key; apply not_nan_spec; assumption.
Qed.

Lemma eqb_key (a b : float) :
  not_nan a -> not_nan b ->
  (a =? b)%float = true <-> sf_key (Prim2SF a) = sf_key (Prim2SF b).
Proof.
  intros Ha Hb. rewrite FloatAxioms.eqb_spec. apply SFeqb_key; apply not_nan_spec; assumption.
Qed.

Lemma key_lt_cases (k1 k2 : Z * Z * Z) : key_lt k1 k2 \/ k1 = k2 \/ key_lt k2 k1.
Proof.
  destruct k1 as [[a1 b1] c1], k2 as [[a2 b2] c2]. unfold key_lt. cbn.
  destruct (Z.lt_total a1 a2) as [|[->|]]; [lia| |lia].
  destruct (Z.lt_total b1 b2) as [|[->|]]; [lia| |lia].
  destruct (Z.lt_total c1 c2) as [|[->|]]; [lia| |lia].
  right. left. reflexivity.
Qed.

Lemma key_lt_irrefl (k : Z * Z * Z) : ~ key_lt k k.
Proof. unfold key_lt. lia. Qed.

Lemma key_lt_trans (k1 k2 k3 : Z * Z * Z) : key_lt k1 k2 -> key_lt k2 k3 -> key_lt k1 k3.
Proof. unfold key_lt. lia. Qed.

(** [<] is asymmetric on all binary64 values. *)
Lemma ltb_asym (a b : float) : (a <? b)%float = true -> (b <? a)%float = false.
Proof.
  intros H.
  destruct (is_nan a) eqn:Ha; [rewrite ltb_nan_l in H by assumption; discriminate|].
  destruct (is_nan b) eqn:Hb; [rewrite ltb_nan_r in H by assumption; discriminate|].
  apply (ltb_key a b Ha Hb) in H.
  destruct (b <? a)%float eqn:E; [|reflexivity].
  apply (ltb_key b a Hb Ha) in E.
  exfalso. exact (key_lt_irrefl _ (key_lt_trans _ _ _ H E)).
Qed.

(** On values other than NaN, "not less than" is transitive. *)
Lemma ltb_negtrans (a b c : float) :
  not_nan a -> not_nan b -> not_nan c ->
  (a <? b)%float = false -> (b <? c)%float = false -> (a <? c)%float = false.
Proof.
  intros Ha Hb Hc Hab Hbc.
  destruct (a <? c)%float eqn:E; [|reflexivity].
  apply (ltb_key a c Ha Hc) in E.
  assert (Nab : ~ key_lt (sf_key (Prim2SF a)) (sf_key (Prim2SF b))).
  { intros K. apply (ltb_key a b Ha Hb) in K. congruence. }
  assert (Nbc : ~ key_lt (sf_key (Prim2SF b)) (sf_key (Prim2SF c))).
  { intros K. apply (ltb_key b c Hb Hc) in K. congruence. }
  exfalso.
  destruct (key_lt_cases (sf_key (Prim2SF a)) (sf_key (Prim2SF b))) as [K|[K|K]];
    [exact (Nab K)| rewrite K in E; exact (Nbc E) |].
  destruct (key_lt_cases (sf_key (Prim2SF b)) (sf_key (Prim2SF c))) as [L|[L|L]];
    [exact (Nbc L)| rewrite <- L in E; exact (key_lt_irrefl _ (key_lt_trans _ _ _ E K)) |].
  exact (key_lt_irrefl _ (key_lt_trans _ _ _ E (key_lt_trans _ _ _ L K))).
Qed.

(** On values other than NaN, [==] holds exactly when neither value is less
    than the other. *)
Lemma eqb_incomparable (a b : float) :
  not_nan a -> not_nan b ->
  (a =? b)%float = true <-> (b <? a)%float = false /\ (a <? b)%float = false.
Proof.
  intros Ha Hb. rewrite (eqb_key a b Ha Hb). split.
  - intros K. split.
    + destruct (b <? a)%float eqn:E; [|reflexivity].
      apply (ltb_key b a Hb Ha) in E. rewrite K in E.
      destruct (key_lt_irrefl _ E).
    + destruct (a <? b)%float eqn:E; [|reflexivity].
      apply (ltb_key a b Ha Hb) in E. rewrite K in E.
      destruct (key_lt_irrefl _ E).
  - intros [Nba Nab].
    destruct (key_lt_cases (sf_key (Prim2SF a)) (sf_key (Prim2SF b))) as [K|[K|K]].
    + apply (ltb_key a b Ha Hb) in K. congruence.
    + exact K.
    + apply (ltb_key b a Hb Ha) in K. congruence.
Qed.

End FloatOrderProps.

(** ** Sorting and binary search *)

Module StdProps.
Import Std.

Section Algorithms.

Context {A : Type} (lt : A -> A -> bool) (dflt : A).

(** The values on which [lt] is a strict weak order. *)
Variable good : A -> Prop.

Hypothesis lt_asym : forall a b, lt a b = true -> lt b a = false.
Hypothesis lt_negtrans : forall a b c,
  good a -> good b -> good c ->
  lt a b = false -> lt b c = false -> lt a c = false.

Lemma sort_insert_perm (a : A) (l : list A) : sort_insert lt a l ≡ₚ a :: l.
Proof.
  induction l as [|b l IH]; cbn; [reflexivity|].
  destruct (lt a b); [reflexivity|].
  rewrite IH. apply Permutation_swap.
Qed.

Lemma sort_perm (l : list A) : sort lt l ≡ₚ l.
Proof.
  induction l as [|a l IH]; [reflexivity|].
  change (sort_insert lt a (sort lt l) ≡ₚ a :: l).
  rewrite sort_insert_perm, IH. reflexivity.
Qed.

Lemma sort_insert_sorted (a : A) (l : list A) :
  good a -> Forall good l -> sorted lt l -> sorted lt (sort_insert lt a l).
Proof.
  intros Ha. induction l as [|b l IH]; intros Hl Hs; cbn.
  - split; [constructor | exact I].
  - apply Forall_cons in Hl as [Hb Hl]. destruct Hs as [Hbl Hs].
    destruct (lt a b) eqn:E.
    + split; [|split; assumption].
      constructor; [apply lt_asym; exact E|].
      rewrite Forall_forall in Hbl, Hl |- *. intros c Hc.
      apply (lt_negtrans c b a); auto.
    + split; [|apply IH; assumption].
      rewrite Forall_forall in Hbl |- *. intros c Hc.
      rewrite sort_insert_perm in Hc. apply elem_of_cons in Hc as [->|Hc]; auto.
Qed.

Lemma sort_sorted (l : list A) : Forall good l -> sorted lt (sort lt l).
Proof.
  induction l as [|a l IH]; intros Hl; [exact I|].
  change (sorted lt (sort_insert lt a (sort lt l))).
  apply Forall_cons in Hl as [Ha Hl].
  apply sort_insert_sorted; auto.
  rewrite sort_perm. exact Hl.
Qed.

Lemma sorted_nth (v : list A) :
  sorted lt v ->
  forall i j, (i < j < length v)%nat -> lt (nth j v dflt) (nth i v dflt) = false.
Proof.
  induction v as [|a v IH]; intros Hs i j Hij; cbn in Hij; [lia|].
  destruct Hs as [Ha Hs]. destruct j as [|j]; [lia|]. destruct i as [|i]; cbn.
  - rewrite Forall_forall in Ha. apply Ha. apply list_elem_of_In, nth_In. lia.
  - apply IH; [assumption | lia].
Qed.

Lemma good_nth (v : list A) (i : nat) :
  Forall good v -> (i < length v)%nat -> good (nth i v dflt).
Proof.
  intros Hv Hi. rewrite Forall_forall in Hv. apply Hv, list_elem_of_In, nth_In, Hi.
Qed.

(** [std::lower_bound] returns the partition point of a sorted range: every
    element before it is less than [value], no element from it on is. *)
Lemma lower_bound_from_spec (v : list A) (value : A) :
  sorted lt v -> Forall good v -> good value ->
  forall count first,
    (first + count <= length v)%nat ->
    (forall i, (i < first)%nat -> lt (nth i v dflt) value = true) ->
    (forall i, (first + count <= i < length v)%nat -> lt (nth i v dflt) value = false) ->
    let p := lower_bound_from lt dflt v value first count in
    (first <= p <= first + count)%nat
    /\ (forall i, (i < p)%nat -> lt (nth i v dflt) value = true)
    /\ (forall i, (p <= i < length v)%nat -> lt (nth i v dflt) value = false).
Proof.
  intros Hs Hg Hval count.
  induction count as [count IH] using lt_wf_ind. intros first Hlen Hlo Hhi.
  destruct count as [|c].
  - rewrite lower_bound_from_equation_1. cbn.
    split; [lia|]. split; [exact Hlo|]. intros i Hi. apply Hhi. lia.
  - rewrite lower_bound_from_equation_2. cbv zeta.
    assert (Hstep : (Nat.div2 (S c) < S c)%nat) by (apply Nat.lt_div2; lia).
    remember (Nat.div2 (S c)) as step eqn:Estep.
    remember (first + step)%nat as it eqn:Eit. clear Estep.
    assert (Hit : (it < length v)%nat) by lia.
    destruct (lt (nth it v dflt) value) eqn:E.
    + (* every element up to [it] is less than [value] *)
      assert (Hlo' : forall i, (i < S it)%nat -> lt (nth i v dflt) value = true).
      { intros i Hi. destruct (Nat.eq_dec i it) as [->|Hne]; [exact E|].
        destruct (lt (nth i v dflt) value) eqn:Ei; [reflexivity|].
        assert (lt (nth it v dflt) value = false); [|congruence].
        apply (lt_negtrans _ (nth i v dflt)); try apply good_nth; auto; try lia.
        apply sorted_nth; [assumption | lia]. }
      destruct (IH (S c - (step + 1))%nat ltac:(lia) (S it)) as (P1 & P2 & P3);
        [lia | exact Hlo' | intros i Hi; apply Hhi; lia |].
      split; [lia|]. split; assumption.
    + (* no element from [it] on is less than [value] *)
      assert (Hhi' : forall i, (first + step <= i < length v)%nat ->
                               lt (nth i v dflt) value = false).
      { intros i Hi. destruct (Nat.eq_dec i it) as [->|Hne]; [exact E|].
        apply (lt_negtrans _ (nth it v dflt)); try apply good_nth; auto; try lia.
        apply sorted_nth; [assumption | lia]. }
      destruct (IH step ltac:(lia) first) as (P1 & P2 & P3);
        [lia | exact Hlo | exact Hhi' |].
      split; [lia|]. split; assumption.
Qed.

(** [std::binary_search] on a sorted range finds [value] exactly when some
    element is equivalent to it, that is neither less nor greater. *)
Lemma binary_search_iff (v : list A) (value : A) :
  sorted lt v -> Forall good v -> good value ->
  binary_search lt dflt v value = true
  <-> exists e, e ∈ v /\ lt e value = false /\ lt value e = false.
Proof.
  intros Hs Hg Hval. unfold binary_search, lower_bound.
  destruct (lower_bound_from_spec v value Hs Hg Hval (length v) 0%nat)
    as (P1 & P2 & P3); [lia | intros i Hi; lia | intros i Hi; lia |].
  set (p := lower_bound_from lt dflt v value 0 (length v)) in *.
  rewrite andb_true_iff, !negb_true_iff, Nat.eqb_neq. split.
  - intros [Hp Hnot]. exists (nth p v dflt).
    split; [apply list_elem_of_In, nth_In; lia|].
    split; [apply P3; lia | exact Hnot].
  - intros (e & He & He1 & He2).
    apply list_elem_of_In, (In_nth _ _ dflt) in He as (i & Hi & <-).
    assert (p <= i)%nat.
    { destruct (le_lt_dec p i); [assumption|]. rewrite P2 in He1 by assumption.
      discriminate. }
    split; [lia|].
    destruct (Nat.eq_dec i p) as [->|Hne]; [exact He2|].
    apply (lt_negtrans _ (nth i v dflt)); try apply good_nth; auto; try lia.
    apply sorted_nth; [assumption | lia].
Qed.

(** When nothing is less than [value], [std::lower_bound] returns the
    start of the range. *)
Lemma lower_bound_from_none_less (v : list A) (value : A) :
  (forall e, lt e value = false) ->
  forall count first, lower_bound_from lt dflt v value first count = first.
Proof.
  intros Hnone count. induction count as [count IH] using lt_wf_ind. intros first.
  destruct count as [|c].
  - apply lower_bound_from_equation_1.
  - rewrite lower_bound_from_equation_2. cbv zeta. rewrite Hnone.
    apply IH. apply Nat.lt_div2. lia.
Qed.

End Algorithms.

Example sort_example :
  sort PrimFloat.ltb [3; 1; 2.5; 1; -4]%float = [-4; 1; 1; 2.5; 3]%float.
Proof. reflexivity. Qed.

Example lower_bound_example :
  lower_bound PrimFloat.ltb nan [1; 2; 2; 3; 5]%float 2%float = 1%nat
  /\ lower_bound PrimFloat.ltb nan [1; 2; 2; 3; 5]%float 4%float = 4%nat
  /\ lower_bound PrimFloat.ltb nan [1; 2; 2; 3; 5]%float 6%float = 5%nat.
Proof. repeat split; reflexivity. Qed.

Example binary_search_example :
  binary_search PrimFloat.ltb nan [1; 2; 2; 3; 5]%float 3%float = true
  /\ binary_search PrimFloat.ltb nan [1; 2; 2; 3; 5]%float 4%float = false
  /\ binary_search PrimFloat.ltb nan [] 4%float = false
  /\ binary_search PrimFloat.ltb nan [0]%float (-0)%float = true.
Proof. repeat split; reflexivity. Qed.

End StdProps.

(** ** Solution managers *)

Module ManagerProps.
Import FloatOrder Std Manager.

(** C8: for every state and time the default [SolutionManager] functor and
    the [Solution] functor return 0, whatever the output times and whether
    or not the time passed the [t_output] filter. *)
Theorem managers_return_zero (s : Solution) (h : SolutionHolder)
    (x_ : state_vector) (t_ : float) :
  SolutionManager_call x_ t_ = 0 /\ (Solution_call s h x_ t_).1 = 0.
Proof.
  split; [reflexivity|]. unfold Solution_call.
  destruct (0 <? length (_t_out s))%nat; [|reflexivity].
  destruct (negb _); reflexivity.
Qed.

Lemma Solution_call_cases (s : Solution) (h : SolutionHolder)
    (x_ : state_vector) (t_ : float) :
  (Solution_call s h x_ t_).2 = h
  \/ (Solution_call s h x_ t_).2 = recorded h x_ t_.
Proof.
  unfold Solution_call.
  destruct (0 <? length (_t_out s))%nat; [|right; reflexivity].
  destruct (negb _); [left | right]; reflexivity.
Qed.

(** C9: every call of the [Solution] functor, on any holder, appends
    exactly one element to both [x] and [t] of the holder (the state and the
    time passed in) or leaves both as they are; so the equality of sizes
    asserted by [SolutionHolder::print] survives every call made on a holder
    in which it holds. *)
Theorem Solution_call_preserves_sizes (s : Solution) (h : SolutionHolder)
    (x_ : state_vector) (t_ : float) :
  let h' := (Solution_call s h x_ t_).2 in
  ((x h' = x h /\ t h' = t h)
   \/ (x h' = x h ++ [x_] /\ t h' = t h ++ [t_]))
  /\ (print_assertion h -> print_assertion h').
Proof.
  intros h'. subst h'. unfold print_assertion.
  destruct (Solution_call_cases s h x_ t_) as [E|E]; rewrite E.
  - split; [left; split; reflexivity | intros Hh; exact Hh].
  - cbn. split; [right; split; reflexivity|].
    intros Hh. rewrite !length_app. cbn. lia.
Qed.

(** A holder with two recorded steps, and a step off the output times
    followed by one on them. *)
Lemma Solution_call_preserves_sizes_witness :
  print_assertion
    (Solution_call (Solution_new [2; 1]%float)
       (mkHolder [[4; 6]; [5; 7]]%float [0; 1]%float) [8; 9]%float 2%float).2.
Proof.
  exact (proj2 (Solution_call_preserves_sizes (Solution_new [2; 1]%float)
                  (mkHolder [[4; 6]; [5; 7]]%float [0; 1]%float)
                  [8; 9]%float 2%float) eq_refl).
Defined.

(** A NaN search value is found in every non-empty range: nothing is less
    than it, so the lower bound is the first element, and it is not less
    than that element either. *)
Lemma binary_search_nan (v : list float) (t_ : float) :
  is_nan t_ = true -> v <> [] -> binary_search PrimFloat.ltb nan v t_ = true.
Proof.
  intros Hnan Hv. unfold binary_search, lower_bound.
  rewrite StdProps.lower_bound_from_none_less
    by (intros e; apply FloatOrderProps.ltb_nan_r, Hnan).
  rewrite FloatOrderProps.ltb_nan_l by exact Hnan.
  destruct v; [contradiction | reflexivity].
Qed.

(** On output times without NaN the search of the sorted copy finds a time
    that is not a NaN exactly when it is [==] to one of the output times. *)
Lemma binary_search_sort (t_output : list float) (t_ : float) :
  Forall not_nan t_output -> not_nan t_ ->
  binary_search PrimFloat.ltb nan (sort PrimFloat.ltb t_output) t_
  = existsb (fun e => (t_ =? e)%float) t_output.
Proof.
  intros Hout Ht.
  assert (Hsorted : sorted PrimFloat.ltb (sort PrimFloat.ltb t_output)).
  { apply (StdProps.sort_sorted PrimFloat.ltb not_nan);
      [exact FloatOrderProps.ltb_asym | exact FloatOrderProps.ltb_negtrans | exact Hout]. }
  assert (Hgood : Forall not_nan (sort PrimFloat.ltb t_output)).
  { rewrite StdProps.sort_perm. exact Hout. }
  apply eq_true_iff_eq.
  rewrite (StdProps.binary_search_iff PrimFloat.ltb nan not_nan
             FloatOrderProps.ltb_negtrans _ _ Hsorted Hgood Ht).
  rewrite existsb_exists. rewrite Forall_forall in Hout. split.
  - intros (e & He & H1 & H2). rewrite StdProps.sort_perm in He.
    exists e. split; [apply list_elem_of_In, He|].
    apply FloatOrderProps.eqb_incomparable; auto.
  - intros (e & He & Heq). apply list_elem_of_In in He.
    exists e. split; [rewrite StdProps.sort_perm; exact He|].
    apply FloatOrderProps.eqb_incomparable in Heq; auto.
Qed.

(** What a [Solution] built from NaN-free output times records. *)
Lemma Solution_call_characterised (t_output : list float) (h : SolutionHolder)
    (x_ : state_vector) (t_ : float) :
  Forall not_nan t_output ->
  Solution_call (Solution_new t_output) h x_ t_
  = (0, match t_output with
        | [] => recorded h x_ t_
        | _ :: _ =>
            if is_nan t_ || existsb (fun e => (t_ =? e)%float) t_output
            then recorded h x_ t_ else h
        end).
Proof.
  intros Hout. destruct t_output as [|e0 l]; [reflexivity|].
  unfold Solution_call, Solution_new. cbn [length Nat.ltb Nat.leb _t_out].
  assert (Hlen : length (sort PrimFloat.ltb (e0 :: l)) = S (length l)).
  { rewrite StdProps.sort_perm. reflexivity. }
  rewrite Hlen. cbn [Nat.ltb Nat.leb].
  destruct (is_nan t_) eqn:Hnan.
  - rewrite binary_search_nan; [reflexivity | exact Hnan |].
    intros E. rewrite E in Hlen. discriminate.
  - rewrite (binary_search_sort _ _ Hout Hnan). cbn [orb].
    destruct (existsb _ _); reflexivity.
Qed.

Lemma existsb_perm {B : Type} (f : B -> bool) (l1 l2 : list B) :
  l1 ≡ₚ l2 -> existsb f l1 = existsb f l2.
Proof.
  intros Hp. apply eq_true_iff_eq. rewrite !existsb_exists.
  split; intros (e & He & Hf); exists e; split; auto;
    apply list_elem_of_In; apply list_elem_of_In in He;
    [rewrite <- Hp | rewrite Hp]; exact He.
Qed.

(** What a call does is the same for every rearrangement of NaN-free
    output times. *)
Lemma Solution_call_perm (t_output t_output' : list float) (h : SolutionHolder)
    (x_ : state_vector) (t_ : float) :
  Forall not_nan t_output -> t_output' ≡ₚ t_output ->
  Solution_call (Solution_new t_output') h x_ t_
  = Solution_call (Solution_new t_output) h x_ t_.
Proof.
  intros Hout Hp.
  assert (Hout' : Forall not_nan t_output') by (rewrite Hp; exact Hout).
  rewrite (Solution_call_characterised _ _ _ _ Hout),
          (Solution_call_characterised _ _ _ _ Hout').
  f_equal. rewrite (existsb_perm _ _ _ Hp).
  destruct t_output' as [|a l'], t_output as [|b l]; try reflexivity.
  - apply Permutation_nil_l in Hp. discriminate.
  - apply Permutation_nil_r in Hp. discriminate.
Qed.

(** What a [Solution] built from output times without NaN records.  When
    the output times are not empty, the functor records [(x_, t_)] if and
    only if [t_] is [==] to one of them or [t_] is a NaN, and leaves the
    holder alone otherwise; what a call records, and so what a whole run
    records, is the same for every rearrangement of the output times passed
    to the constructor; when there are no output times, every call records
    its pair. *)
Theorem Solution_call_records (t_output : list float) (h : SolutionHolder)
    (x_ : state_vector) (t_ : float) :
  Forall not_nan t_output ->
  (Solution_call (Solution_new t_output) h x_ t_).2
  = match t_output with
    | [] => recorded h x_ t_
    | _ :: _ =>
        if is_nan t_ || existsb (fun e => (t_ =? e)%float) t_output
        then recorded h x_ t_ else h
    end
  /\ (forall t_output', t_output' ≡ₚ t_output ->
        Solution_call (Solution_new t_output') h x_ t_
        = Solution_call (Solution_new t_output) h x_ t_)
  /\ (forall t_output' steps, t_output' ≡ₚ t_output ->
        Solution_calls (Solution_new t_output') h steps
        = Solution_calls (Solution_new t_output) h steps)
  /\ (Solution_call (Solution_new []) h x_ t_).2 = recorded h x_ t_.
Proof.
  intros Hout. split; [|split; [|split; [|reflexivity]]].
  - rewrite (Solution_call_characterised _ _ _ _ Hout). reflexivity.
  - intros l' Hp. apply Solution_call_perm; assumption.
  - intros l' steps Hp. unfold Solution_calls. generalize h.
    induction steps as [|[x1 t1] steps IH]; intros h0; cbn; [reflexivity|].
    rewrite (Solution_call_perm _ _ _ _ _ Hout Hp). apply IH.
Qed.

(** Output times [3, 1, 2] and the time [2]: the pair is recorded. *)
Lemma Solution_call_records_witness :
  (Solution_call (Solution_new [3; 1; 2]%float) (mkHolder [] []) [4; 6]%float 2%float).2
  = mkHolder [[4; 6]%float] [2%float].
Proof.
  refine (proj1 (Solution_call_records [3; 1; 2]%float (mkHolder [] [])
                   [4; 6]%float 2%float _)).
  repeat constructor.
Defined.

(** C10: the functor is meant to record a step exactly when its time is one
    of the output times (the class writes "every specific time from
    [t_output]"), and the code does not for a NaN time: with output times
    [[1]] the pair [([4, 6], NaN)] is recorded although NaN is equal to none
    of them.  No element is less than NaN, so [std::lower_bound] stays at
    the first element, and NaN is not less than that element, so
    [std::binary_search] answers true and the early return is skipped. *)
Lemma Solution_call_records_nan_time :
  (Solution_call (Solution_new [1]%float) (mkHolder [] []) [4; 6]%float nan).2
  = mkHolder [[4; 6]%float] [nan]
  /\ ~ (exists e, e ∈ [1]%float /\ (nan =? e)%float = true).
Proof.
  split; [reflexivity|].
  intros (e & He & Heq). apply list_elem_of_singleton in He. subst e.
  discriminate Heq.
Qed.

End ManagerProps.

(** ** The time integration driver *)

Module DriverProps.
Import Driver.

Section Run.

Context {CS MS : Type}.
Variable attempt : CS -> state_vector -> float -> attempt_result CS.
Variable callback : MS -> state_vector -> float -> Z * MS.
Variable max_retries : nat.
Variable t1 : float.




Lemma filter_rejects (f : event -> bool) (n : nat) (tr : list event) :
  f EvReject = false ->
  List.filter f (repeat EvReject n ++ tr) = List.filter f tr.
Proof. intros Hf. induction n as [|n IH]; cbn; [reflexivity|]. rewrite Hf. exact IH. Qed.





(** A callback that always returns 0 never makes the Driver stop at the
    caller's request. *)
Lemma driver_no_caller_stop (fuel : nat) (cs : CS) (ms : MS)
    (x : state_vector) (t : float) :
  (forall ms' x' t', (callback ms' x' t').1 = 0) ->
  res_status (driver attempt callback max_retries t1 fuel cs ms x t) <> CallerStop.
Proof.
  intros Hzero. revert cs ms x t.
  induction fuel as [|k IH]; intros cs ms x t; cbn; [discriminate|].
  destruct (t <? t1)%float; [|discriminate].
  destruct (controller attempt max_retries cs x t) as [[x' t' cs'|cs'] tr];
    [|discriminate].
  pose proof (Hzero ms x' t') as Hr.
  destruct (callback ms x' t') as [r ms']. cbn in Hr. subst r. cbn. apply IH.
Qed.

End Run.

(** With the [Solution] functor as its callback, recording into a holder,
    the Driver never stops at the caller's request. *)
Lemma driver_with_Solution {CS : Type}
    (attempt : CS -> state_vector -> float -> attempt_result CS)
    (max_retries : nat) (t1 : float) (s : Manager.Solution)
    (fuel : nat) (cs : CS) (h : Manager.SolutionHolder)
    (x : state_vector) (t : float) :
  res_status (driver attempt (Manager.Solution_call s) max_retries t1 fuel cs h x t)
  <> CallerStop.
Proof.
  apply driver_no_caller_stop. intros h' x' t'.
  unfold Manager.Solution_call.
  destruct (0 <? length (Manager._t_out s))%nat; [|reflexivity].
  destruct (negb _); reflexivity.
Qed.


End DriverProps.

(** * Further properties of the code *)

(** ** Solver options *)

Module OptionsMore.
Import Options.

(** Zero-filling [n] cells from index [k] on leaves what follows them. *)
Lemma zero_fill_frame (n k : nat) (pre l rest : list Z) :
  length pre = k -> length l = n ->
  fold_left (fun ip i => <[i:=0]> ip) (seq k n) (pre ++ l ++ rest)
  = pre ++ replicate n 0 ++ rest.
Proof.
  revert k pre l. induction n as [|n IH]; intros k pre l Hpre Hl.
  - destruct l; [reflexivity | discriminate].
  - destruct l as [|a l]; [discriminate|]. simpl in Hl.
    cbn [seq fold_left].
    rewrite insert_app_r_alt by lia.
    replace (k - length pre)%nat with 0%nat by lia. cbn [insert list_insert app].
    change (pre ++ 0 :: l ++ rest) with (pre ++ [0] ++ l ++ rest).
    rewrite app_assoc.
    rewrite (IH (S k) (pre ++ [0]) l).
    + rewrite <- app_assoc. reflexivity.
    + rewrite length_app. simpl. lia.
    + lia.
Qed.

(** What [set_iparm_for_pardiso] leaves in an array of at least 64 entries. *)
Lemma set_iparm_for_pardiso_frame (o : SolverOptions) (first rest : list Z) :
  length first = 64%nat ->
  set_iparm_for_pardiso o (first ++ rest)
  = set_iparm_for_pardiso o (replicate 64 0) ++ rest.
Proof.
  intros Hlen.
  assert (Hfill : fold_left (fun ip i => <[i:=0]> ip) (seq 0 64) (first ++ rest)
                  = replicate 64 0 ++ rest).
  { exact (zero_fill_frame 64 0 [] first rest eq_refl Hlen). }
  unfold set_iparm_for_pardiso. rewrite Hfill.
  cbn -[Z.eqb].
  destruct (parallel_fact_control o =? 1); reflexivity.
Qed.

Lemma set_iparm_for_pardiso_length_64 (o : SolverOptions) :
  length (set_iparm_for_pardiso o (replicate 64 0)) = 64%nat.
Proof.
  unfold set_iparm_for_pardiso. cbn -[Z.eqb].
  destruct (parallel_fact_control o =? 1); reflexivity.
Qed.

(** After [check_options] the BDF order is always admissible, and checking
    again changes nothing. *)
Theorem check_options_valid (o : SolverOptions) :
  1 <= bdf_order (check_options o) <= BDF_MAX_ORDER
  /\ check_options (check_options o) = check_options o.
Proof.
  destruct o as [a d b c r p q]. unfold check_options, BDF_MAX_ORDER.
  cbn [bdf_order].
  destruct (Z.ltb_spec b 1), (Z.gtb_spec b 6); cbn; try (split; [lia|reflexivity]).
  destruct (Z.ltb_spec b 1), (Z.gtb_spec b 6); cbn; try lia.
  split; [lia | reflexivity].
Qed.

(** [set_iparm_for_pardiso] writes the first 64 entries only: in a longer
    array every entry from index 64 on keeps its value and the length is
    unchanged. *)
Theorem set_iparm_for_pardiso_first_64 (o : SolverOptions) (first rest : list Z) :
  length first = 64%nat ->
  set_iparm_for_pardiso o (first ++ rest) = set_iparm_for_pardiso o first ++ rest
  /\ length (set_iparm_for_pardiso o (first ++ rest)) = length (first ++ rest).
Proof.
  intros Hlen.
  pose proof (set_iparm_for_pardiso_frame o first rest Hlen) as E.
  pose proof (set_iparm_for_pardiso_frame o first [] Hlen) as E0.
  rewrite !app_nil_r in E0.
  split; [rewrite E, E0; reflexivity|].
  rewrite E, !length_app, Hlen, set_iparm_for_pardiso_length_64. reflexivity.
Qed.

Lemma set_iparm_for_pardiso_first_64_witness :
  set_iparm_for_pardiso (mkSolverOptions 1.0e-6 0.1 2 0 2 0 0)
    (replicate 64 7 ++ [8; 9])
  = set_iparm_for_pardiso (mkSolverOptions 1.0e-6 0.1 2 0 2 0 0) (replicate 64 7)
    ++ [8; 9].
Proof.
  exact (proj1 (set_iparm_for_pardiso_first_64
                  (mkSolverOptions 1.0e-6 0.1 2 0 2 0 0) (replicate 64 7) [8; 9]
                  eq_refl)).
Defined.

(** Filling the array twice is the same as filling it once, and the array
    does not depend on whether [check_options] was called before: the BDF
    order and the tolerances play no part in it. *)
Theorem set_iparm_for_pardiso_idempotent (o : SolverOptions) (iparm : list Z) :
  (64 <= length iparm)%nat ->
  set_iparm_for_pardiso o (set_iparm_for_pardiso o iparm)
  = set_iparm_for_pardiso o iparm
  /\ set_iparm_for_pardiso (check_options o) iparm = set_iparm_for_pardiso o iparm
  /\ (forall a d b,
        set_iparm_for_pardiso
          (mkSolverOptions a d b (preconditioned_CGS o) (refinement_steps o)
             (parallel_fact_control o) (parallel_solve_control o)) iparm
        = set_iparm_for_pardiso o iparm).
Proof.
  intros Hlen. split; [|split].
  - rewrite <- (take_drop 64 iparm).
    assert (Htake : length (take 64 iparm) = 64%nat) by (rewrite length_take; lia).
    rewrite (set_iparm_for_pardiso_frame o _ _ Htake).
    pose proof (set_iparm_for_pardiso_length_64 o) as H64.
    rewrite (set_iparm_for_pardiso_frame o _ _ H64). reflexivity.
  - unfold check_options.
    destruct ((bdf_order o <? 1) || (bdf_order o >? BDF_MAX_ORDER)); reflexivity.
  - intros a d b. reflexivity.
Qed.

Lemma set_iparm_for_pardiso_idempotent_witness :
  set_iparm_for_pardiso (mkSolverOptions 1.0e-6 0.1 9 1 2 1 3)
    (set_iparm_for_pardiso (mkSolverOptions 1.0e-6 0.1 9 1 2 1 3) (replicate 70 5))
  = set_iparm_for_pardiso (mkSolverOptions 1.0e-6 0.1 9 1 2 1 3) (replicate 70 5).
Proof.
  refine (proj1 (set_iparm_for_pardiso_idempotent
                   (mkSolverOptions 1.0e-6 0.1 9 1 2 1 3) (replicate 70 5) _)).
  rewrite length_replicate. lia.
Defined.

End OptionsMore.

(** ** Jacobian helpers *)

Module JacobianMore.
Import Jacobian JacobianOrder.

(** The absolute value of a NaN is a NaN. *)
Lemma is_nan_abs (v : float) : is_nan v = true -> is_nan (abs v) = true.
Proof.
  intros H. apply FloatOrderProps.is_nan_spec in H.
  apply FloatOrderProps.is_nan_spec. rewrite abs_spec, H. reflexivity.
Qed.

(** A value whose magnitude exceeds a tolerance is not a NaN, and neither
    is the tolerance. *)
Lemma above_tolerance_not_nan (tol v : float) :
  (tol <? abs v)%float = true -> is_nan v = false /\ is_nan tol = false.
Proof.
  intros H. split.
  - destruct (is_nan v) eqn:E; [|reflexivity].
    rewrite (FloatOrderProps.ltb_nan_r _ _ (is_nan_abs v E)) in H. discriminate.
  - destruct (is_nan tol) eqn:E; [|reflexivity].
    rewrite (FloatOrderProps.ltb_nan_l _ _ E) in H. discriminate.
Qed.

(** A value whose magnitude exceeds a tolerance that is not negative is not
    zero. *)
Lemma above_tolerance_not_zero (tol v : float) :
  (0 <=? tol)%float = true -> (tol <? abs v)%float = true -> (v =? 0)%float = false.
Proof.
  rewrite leb_spec, FloatAxioms.ltb_spec, FloatAxioms.eqb_spec, abs_spec.
  change (Prim2SF 0) with (S754_zero false).
  unfold SFleb, SFltb, SFeqb.
  destruct (Prim2SF tol) as [[]|[]| |[] m1 e1], (Prim2SF v) as [[]|[]| |[] m2 e2];
    cbn; congruence.
Qed.

Lemma StronglySorted_seq (k n : nat) : StronglySorted Nat.lt (seq k n).
Proof.
  revert k. induction n as [|n IH]; intros k; cbn; constructor; [apply IH|].
  apply List.Forall_forall. intros i Hi. apply in_seq in Hi. lia.
Qed.

Lemma StronglySorted_seqZ (m n : Z) : StronglySorted Z.lt (seqZ m n).
Proof.
  unfold seqZ.
  apply (StronglySorted_fmap _ Nat.lt); [intros i j Hij; lia|].
  apply StronglySorted_seq.
Qed.

(** Concatenating, in order, blocks that are sorted and whose elements
    respect the order of the blocks gives a sorted list. *)
Lemma StronglySorted_bind {B C : Type} (R : B -> B -> Prop) (S : C -> C -> Prop)
    (g : B -> list C) (l : list B) :
  StronglySorted R l ->
  (forall b, b ∈ l -> StronglySorted S (g b)) ->
  (forall b1 b2 c1 c2, R b1 b2 -> c1 ∈ g b1 -> c2 ∈ g b2 -> S c1 c2) ->
  StronglySorted S (l ≫= g).
Proof.
  intros Hl Hg HRS. induction Hl as [|b l Hl IH Hb]; cbn; [constructor|].
  apply StronglySorted_app_2.
  - intros c1 c2 H1 H2. apply list_elem_of_bind in H2 as (b2 & H2 & Hb2).
    apply (HRS b b2); auto.
    rewrite List.Forall_forall in Hb. apply Hb, list_elem_of_In, Hb2.
  - apply Hg. left.
  - apply IH. intros b' Hb'. apply Hg. right. exact Hb'.
Qed.

Lemma length_bind_le {B C : Type} (g : B -> list C) (l : list B) (k : nat) :
  (forall b, length (g b) <= k)%nat -> (length (l ≫= g) <= length l * k)%nat.
Proof.
  intros Hg. induction l as [|b l IH]; cbn; [lia|].
  rewrite length_app. specialize (Hg b). lia.
Qed.

Section WithRHS.

Context {RHS : Type}.
Variable derivative : RHS -> state_vector -> float -> Z -> Z -> float.
Variable jacobian : RHS -> state_vector -> float -> Z -> Z -> float.
Variable TOL : float.

(** The entries inserted into a fresh matrix. *)
Lemma automatic_entries (a : JacobianAutomatic (RHS:=RHS))
    (x : state_vector) (t : float) :
  sm_entries (JacobianAutomatic_call jacobian TOL a [] x t)
  = seqZ 0 (Z.of_nat (length x)) ≫= fun j =>
    seqZ 0 (Z.of_nat (length x)) ≫= fun i =>
    if (TOL <? abs (jacobian (auto_rhs a) x t i j))%float
    then [(i, j, jacobian (auto_rhs a) x t i j)] else [].
Proof.
  rewrite JacobianProps.JacobianAutomatic_call_unfold. cbn [app].
  rewrite (JacobianProps.sm_entries_inserts (fun e => e)). apply map_id.
Qed.

Lemma automatic_entry_above (a : JacobianAutomatic (RHS:=RHS))
    (x : state_vector) (t : float) (e : Z * Z * float) :
  e ∈ sm_entries (JacobianAutomatic_call jacobian TOL a [] x t) ->
  (TOL <? abs e.2)%float = true.
Proof.
  rewrite automatic_entries. intros H.
  apply list_elem_of_bind in H as (j & H & _).
  apply list_elem_of_bind in H as (i & H & _).
  destruct (TOL <? abs (jacobian (auto_rhs a) x t i j))%float eqn:E; [|inversion H].
  apply list_elem_of_singleton in H. subst e. exact E.
Qed.

(** [JacobianAutomatic]'s [operator()] keeps what [J] already holds and
    appends to it what it would put into a fresh matrix; the entries are
    inserted in column-major order, by increasing column and, within a
    column, by increasing row; there are at most [N * N] of them. *)
Theorem JacobianAutomatic_call_order (a : JacobianAutomatic (RHS:=RHS))
    (J : sparse_matrix) (x : state_vector) (t : float) :
  let entries := sm_entries (JacobianAutomatic_call jacobian TOL a [] x t) in
  JacobianAutomatic_call jacobian TOL a J x t
  = J ++ JacobianAutomatic_call jacobian TOL a [] x t
  /\ StronglySorted column_major entries
  /\ (length entries <= length x * length x)%nat.
Proof.
  intros entries. split; [|split].
  - rewrite (JacobianProps.JacobianAutomatic_call_unfold jacobian TOL a J),
            (JacobianProps.JacobianAutomatic_call_unfold jacobian TOL a []).
    reflexivity.
  - subst entries. rewrite automatic_entries.
    apply (StronglySorted_bind Z.lt); [apply StronglySorted_seqZ | |].
    + intros j _. apply (StronglySorted_bind Z.lt); [apply StronglySorted_seqZ | |].
      * intros i _. destruct (TOL <? abs _)%float; repeat constructor.
      * intros i1 i2 c1 c2 Hi H1 H2.
        destruct (TOL <? abs (jacobian (auto_rhs a) x t i1 j))%float; [|inversion H1].
        destruct (TOL <? abs (jacobian (auto_rhs a) x t i2 j))%float; [|inversion H2].
        apply list_elem_of_singleton in H1, H2. subst c1 c2.
        right. cbn. split; [reflexivity | exact Hi].
    + intros j1 j2 c1 c2 Hj H1 H2.
      apply list_elem_of_bind in H1 as (i1 & H1 & _).
      apply list_elem_of_bind in H2 as (i2 & H2 & _).
      destruct (TOL <? abs (jacobian (auto_rhs a) x t i1 j1))%float; [|inversion H1].
      destruct (TOL <? abs (jacobian (auto_rhs a) x t i2 j2))%float; [|inversion H2].
      apply list_elem_of_singleton in H1, H2. subst c1 c2.
      left. exact Hj.
  - subst entries. rewrite automatic_entries.
    pose proof (length_seqZ 0 (Z.of_nat (length x))) as Hlen.
    rewrite Nat2Z.id in Hlen.
    etransitivity.
    + apply (length_bind_le _ _ (length x)). intros j.
      etransitivity.
      * apply (length_bind_le _ _ 1%nat). intros i.
        destruct (TOL <? abs _)%float; cbn; lia.
      * rewrite Hlen. lia.
    + rewrite Hlen. lia.
Qed.

(** [JacobianAutomatic]'s [operator()] never inserts a NaN: an entry of the
    dense Jacobian that is a NaN is dropped like a zero, and with a NaN
    tolerance nothing is inserted at all. *)
Theorem JacobianAutomatic_call_no_nan (a : JacobianAutomatic (RHS:=RHS))
    (x : state_vector) (t : float) :
  Forall (fun e => is_nan e.2 = false /\ is_nan TOL = false)
         (sm_entries (JacobianAutomatic_call jacobian TOL a [] x t)).
Proof.
  apply Forall_forall. intros e He.
  apply above_tolerance_not_nan. exact (automatic_entry_above a x t e He).
Qed.

(** With a tolerance that is not negative, [JacobianAutomatic]'s
    [operator()] never inserts a zero, be it [0.0] or [-0.0]. *)
Theorem JacobianAutomatic_call_no_zero (a : JacobianAutomatic (RHS:=RHS))
    (x : state_vector) (t : float) :
  (0 <=? TOL)%float = true ->
  Forall (fun e => (e.2 =? 0)%float = false)
         (sm_entries (JacobianAutomatic_call jacobian TOL a [] x t)).
Proof.
  intros Htol. apply Forall_forall. intros e He.
  exact (above_tolerance_not_zero TOL e.2 Htol (automatic_entry_above a x t e He)).
Qed.

End WithRHS.

Lemma JacobianAutomatic_call_no_zero_witness :
  Forall (fun e : Z * Z * float => (e.2 =? 0)%float = false)
    (sm_entries
       (JacobianAutomatic_call
          (fun (_ : unit) _ _ i j =>
             match i, j with
             | 0, 0 => 1 | 0, 1 => (-0) | 1, 1 => -2 | _, _ => 0
             end%float)
          0%float (mkAutomatic tt) [] [4; 6]%float 0%float)).
Proof.
  apply (JacobianAutomatic_call_no_zero
           (fun (_ : unit) _ _ i j =>
              match i, j with
              | 0, 0 => 1 | 0, 1 => (-0) | 1, 1 => -2 | _, _ => 0
              end%float)
           0%float (mkAutomatic tt) [4; 6]%float 0%float).
  reflexivity.
Defined.

End JacobianMore.

(** ** The Jacobian shape helper *)

Module ShapeMore.
Import Jacobian.

Section WithRHS.

Context {RHS : Type}.
Variable derivative : RHS -> state_vector -> float -> Z -> Z -> float.
Variable max_size : Z.

(** The insertions made for a list of positions. *)
Lemma shape_call_matrix (s : JacobianMatrixShape (RHS:=RHS))
    (J : sparse_matrix) (x : state_vector) (t : float) :
  (JacobianMatrixShape_call derivative s J x t).1
  = J ++ (if m_N_elements s =? 0 then [] else [SM_reserve (m_N_elements s)])
      ++ map (fun p => SM_insert p.1 p.2 (derivative (shape_rhs s) x t p.1 p.2))
             (m_Jn s).
Proof.
  unfold JacobianMatrixShape_call. cbn [fst]. unfold sm_insert.
  rewrite (JacobianProps.fold_left_append
             (fun Jn => [SM_insert Jn.1 Jn.2 (derivative (shape_rhs s) x t Jn.1 Jn.2)])).
  rewrite JacobianProps.bind_singleton_map.
  destruct (m_N_elements s =? 0); unfold sm_reserve; cbn [app];
    rewrite <- ?app_assoc; reflexivity.
Qed.

Lemma shape_call_entries (s : JacobianMatrixShape (RHS:=RHS))
    (J : sparse_matrix) (x : state_vector) (t : float) :
  sm_entries (JacobianMatrixShape_call derivative s J x t).1
  = sm_entries J
    ++ map (fun p => (p, derivative (shape_rhs s) x t p.1 p.2)) (m_Jn s).
Proof.
  rewrite shape_call_matrix, !JacobianProps.sm_entries_app.
  rewrite (JacobianProps.sm_entries_inserts
             (fun p : Z * Z => (p, derivative (shape_rhs s) x t p.1 p.2))).
  destruct (m_N_elements s =? 0); reflexivity.
Qed.

Lemma shape_call_reserves (s : JacobianMatrixShape (RHS:=RHS))
    (J : sparse_matrix) (x : state_vector) (t : float) :
  sm_reserves (JacobianMatrixShape_call derivative s J x t).1
  = sm_reserves J ++ (if m_N_elements s =? 0 then [] else [m_N_elements s]).
Proof.
  rewrite shape_call_matrix, !JacobianProps.sm_reserves_app.
  rewrite (JacobianProps.sm_reserves_inserts
             (fun p : Z * Z => (p, derivative (shape_rhs s) x t p.1 p.2))).
  rewrite app_nil_r. destruct (m_N_elements s =? 0); reflexivity.
Qed.

(** [clear()] forgets every declared position but keeps the size hint: the
    next call of [operator()] inserts nothing, still reserves the old hint
    when it is non-zero, and leaves a hint of 0; positions declared after
    [clear()] are the only ones the object then holds. *)
Theorem clear_then_call (s : JacobianMatrixShape (RHS:=RHS)) (ds : list declaration)
    (J : sparse_matrix) (x : state_vector) (t : float) :
  (JacobianMatrixShape_call derivative (clear s) J x t).1
  = J ++ (if m_N_elements s =? 0 then [] else [SM_reserve (m_N_elements s)])
  /\ sm_entries (JacobianMatrixShape_call derivative (clear s) J x t).1
     = sm_entries J
  /\ m_N_elements (JacobianMatrixShape_call derivative (clear s) J x t).2 = 0
  /\ m_Jn (fold_left declare ds (clear s)) = ds ≫= declared_positions.
Proof.
  split; [|split; [|split]].
  - rewrite shape_call_matrix. cbn. rewrite app_nil_r. reflexivity.
  - rewrite shape_call_entries. cbn. apply app_nil_r.
  - reflexivity.
  - destruct (JacobianProps.m_Jn_declare ds (clear s)) as (E & _). exact E.
Qed.


(** After one call of [operator()] the object no longer changes: every
    later call reserves exactly the number of declared positions, or nothing
    when none is declared, and inserts at the declared positions again; on
    the same state and time it inserts the same entries. *)
Theorem call_twice (s : JacobianMatrixShape (RHS:=RHS))
    (J K : sparse_matrix) (x x' : state_vector) (t t' : float) :
  let s1 := (JacobianMatrixShape_call derivative s J x t).2 in
  (JacobianMatrixShape_call derivative s1 K x' t').2 = s1
  /\ sm_reserves (JacobianMatrixShape_call derivative s1 K x' t').1
     = sm_reserves K
       ++ match m_Jn s with [] => [] | _ :: _ => [Z.of_nat (length (m_Jn s))] end
  /\ map fst (sm_entries (JacobianMatrixShape_call derivative s1 K x' t').1)
     = map fst (sm_entries K) ++ m_Jn s
  /\ sm_entries (JacobianMatrixShape_call derivative s1 [] x t).1
     = sm_entries (JacobianMatrixShape_call derivative s [] x t).1.
Proof.
  intros s1. split; [reflexivity|]. split; [|split].
  - rewrite shape_call_reserves. subst s1. cbn.
    destruct (m_Jn s); reflexivity.
  - rewrite shape_call_entries, map_app, map_map. subst s1. cbn.
    rewrite map_id. reflexivity.
  - rewrite !shape_call_entries. reflexivity.
Qed.

End WithRHS.

End ShapeMore.

(** ** Solution managers over a run *)

Module ManagerMore.
Import FloatOrder Std Manager.

Lemma Solution_calls_cons (s : Solution) (h : SolutionHolder)
    (x_ : state_vector) (t_ : float) (steps : list (state_vector * float)) :
  Solution_calls s h ((x_, t_) :: steps)
  = Solution_calls s (Solution_call s h x_ t_).2 steps.
Proof. reflexivity. Qed.

(** Over a whole run a [Solution] built from NaN-free output times holds,
    after what it held before, exactly the steps whose time is [==] to an
    output time or is a NaN, every step when there are no output times, in
    the order of the calls and with each state next to its time. *)
Theorem Solution_calls_records (t_output : list float) (h : SolutionHolder)
    (steps : list (state_vector * float)) :
  Forall not_nan t_output ->
  let kept :=
    List.filter
      (fun st : state_vector * float =>
         match t_output with
         | [] => true
         | _ :: _ => is_nan st.2 || existsb (fun e => (st.2 =? e)%float) t_output
         end) steps in
  Solution_calls (Solution_new t_output) h steps
  = {| x := x h ++ map fst kept; t := t h ++ map snd kept |}.
Proof.
  intros Hout. cbv zeta. revert h.
  induction steps as [|[x1 t1] steps IH]; intros h.
  - cbn. rewrite !app_nil_r. destruct h; reflexivity.
  - rewrite Solution_calls_cons,
            (ManagerProps.Solution_call_characterised _ _ _ _ Hout), IH.
    cbn [snd fst List.filter].
    destruct t_output as [|e0 l]; [cbn; rewrite <- !app_assoc; reflexivity|].
    destruct (is_nan t1 || existsb (fun e => (t1 =? e)%float) (e0 :: l));
      [cbn; rewrite <- !app_assoc; reflexivity | reflexivity].
Qed.

Lemma Solution_calls_records_witness :
  Solution_calls (Solution_new [2; 1]%float) (mkHolder [] [])
    [([4; 6], 0.5); ([5; 7], 1); ([6; 8], 1.5); ([7; 9], 2)]%float
  = mkHolder [[5; 7]; [7; 9]]%float [1; 2]%float.
Proof.
  refine (Solution_calls_records [2; 1]%float (mkHolder [] [])
            [([4; 6], 0.5); ([5; 7], 1); ([6; 8], 1.5); ([7; 9], 2)]%float _).
  repeat constructor.
Defined.

(** Whatever its output times and whatever the holder, a [Solution] never
    touches what the holder already contains: over a run it appends a
    selection of the steps, in their order, states and times in lockstep;
    so a holder that passes the assertion of [SolutionHolder::print] still
    passes it after the run. *)
Theorem Solution_calls_grow (s : Solution) (h : SolutionHolder)
    (steps : list (state_vector * float)) :
  let h' := Solution_calls s h steps in
  (exists kept, sublist kept steps
                /\ x h' = x h ++ map fst kept /\ t h' = t h ++ map snd kept)
  /\ (print_assertion h -> print_assertion h').
Proof.
  intros h'.
  assert (Hk : exists kept, sublist kept steps
                 /\ x h' = x h ++ map fst kept /\ t h' = t h ++ map snd kept).
  { subst h'. revert h.
    induction steps as [|[x1 t1] steps IH]; intros h.
    - exists []. cbn. rewrite !app_nil_r. split; [constructor | split; reflexivity].
    - rewrite Solution_calls_cons.
      destruct (IH (Solution_call s h x1 t1).2) as (kept & Hsub & Ex & Et).
      destruct (ManagerProps.Solution_call_cases s h x1 t1) as [E|E];
        rewrite E in *.
      + exists kept. split; [apply sublist_cons, Hsub | split; assumption].
      + exists ((x1, t1) :: kept). split; [apply sublist_skip, Hsub|].
        rewrite Ex, Et. cbn. rewrite <- !app_assoc. split; reflexivity. }
  split; [exact Hk|].
  destruct Hk as (kept & _ & Ex & Et). unfold print_assertion. intros Hh.
  rewrite Ex, Et, !length_app, !length_map. lia.
Qed.

Lemma Solution_calls_grow_witness :
  print_assertion
    (Solution_calls (mkSolution [3; nan; 1]%float)
       (mkHolder [[0; 0]]%float [0]%float)
       [([4; 6], 1); ([5; 7], 2)]%float).
Proof.
  exact (proj2 (Solution_calls_grow (mkSolution [3; nan; 1]%float)
                  (mkHolder [[0; 0]]%float [0]%float)
                  [([4; 6], 1); ([5; 7], 2)]%float) eq_refl).
Defined.

(** The constructor's private copy holds the output times it was given,
    each as often as given, and, when none of them is a NaN, in an order in
    which no time is less than an earlier one. *)
Theorem Solution_new_sorted (t_output : list float) :
  Forall not_nan t_output ->
  _t_out (Solution_new t_output) ≡ₚ t_output
  /\ length (_t_out (Solution_new t_output)) = length t_output
  /\ sorted PrimFloat.ltb (_t_out (Solution_new t_output)).
Proof.
  intros Hout.
  assert (E : _t_out (Solution_new t_output) = sort PrimFloat.ltb t_output).
  { destruct t_output; reflexivity. }
  rewrite E. split; [apply StdProps.sort_perm|].
  split; [rewrite StdProps.sort_perm; reflexivity|].
  apply (StdProps.sort_sorted PrimFloat.ltb not_nan);
    [exact FloatOrderProps.ltb_asym | exact FloatOrderProps.ltb_negtrans | exact Hout].
Qed.

Lemma Solution_new_sorted_witness :
  _t_out (Solution_new [3; 1; 2; 1]%float) ≡ₚ [3; 1; 2; 1]%float.
Proof.
  refine (proj1 (Solution_new_sorted [3; 1; 2; 1]%float _)).
  repeat constructor.
Defined.

Section Search.

Context {A : Type} (lt : A -> A -> bool).

(** [std::lower_bound] stays within the range it is given. *)
Lemma lower_bound_from_bounds (d : A) (v : list A) (value : A) (count first : nat) :
  (first <= lower_bound_from lt d v value first count <= first + count)%nat.
Proof.
  revert first. induction count as [count IH] using lt_wf_ind. intros first.
  destruct count as [|c].
  - rewrite lower_bound_from_equation_1. lia.
  - rewrite lower_bound_from_equation_2. cbv zeta.
    assert (Hstep : (Nat.div2 (S c) < S c)%nat) by (apply Nat.lt_div2; lia).
    remember (Nat.div2 (S c)) as step eqn:Estep. clear Estep.
    destruct (lt (nth (first + step) v d) value).
    + pose proof (IH (S c - (step + 1))%nat ltac:(lia) (S (first + step))). lia.
    + pose proof (IH step ltac:(lia) first). lia.
Qed.

Lemma lower_bound_from_dflt (d1 d2 : A) (v : list A) (value : A) (count first : nat) :
  (first + count <= length v)%nat ->
  lower_bound_from lt d1 v value first count
  = lower_bound_from lt d2 v value first count.
Proof.
  revert first. induction count as [count IH] using lt_wf_ind. intros first Hlen.
  destruct count as [|c].
  - rewrite !lower_bound_from_equation_1. reflexivity.
  - rewrite !lower_bound_from_equation_2. cbv zeta.
    assert (Hstep : (Nat.div2 (S c) < S c)%nat) by (apply Nat.lt_div2; lia).
    remember (Nat.div2 (S c)) as step eqn:Estep. clear Estep.
    rewrite (nth_indep v d1 d2) by lia.
    destruct (lt (nth (first + step) v d2) value); apply IH; lia.
Qed.

(** [std::binary_search], as [Solution::operator()] uses it on [_t_out],
    reads the vector at valid indices only: its answer does not depend on
    what an access outside the vector would return. *)
Theorem binary_search_in_range (d1 d2 : A) (v : list A) (value : A) :
  binary_search lt d1 v value = binary_search lt d2 v value
  /\ (lower_bound lt d1 v value <= length v)%nat.
Proof.
  unfold binary_search, lower_bound.
  pose proof (lower_bound_from_bounds d1 v value (length v) 0) as Hb.
  rewrite (lower_bound_from_dflt d1 d2 v value (length v) 0) in * by lia.
  split; [|lia].
  destruct (Nat.eqb_spec (lower_bound_from lt d2 v value 0 (length v)) (length v));
    [reflexivity|].
  rewrite (nth_indep v d1 d2) by lia. reflexivity.
Qed.

End Search.

End ManagerMore.

(** ** Printing a solution holder *)

Module PrintingMore.
Import Manager Printing.

(** The loop that keeps the user's indices below [N]. *)
Lemma push_back_loop (N : nat) (ind acc : list nat) :
  fold_left (fun ind_out i => if (i <? N)%nat then ind_out ++ [i] else ind_out)
            ind acc
  = acc ++ List.filter (fun i => (i <? N)%nat) ind.
Proof.
  revert acc. induction ind as [|i ind IH]; intros acc; cbn [fold_left List.filter].
  - rewrite app_nil_r. reflexivity.
  - rewrite IH. destruct (i <? N)%nat; [|reflexivity].
    rewrite <- app_assoc. reflexivity.
Qed.

(** The loop that writes [0 .. N-1] into the resized vector. *)
Lemma fill_loop (n k : nat) (pre l : list nat) :
  length pre = k -> length l = n ->
  fold_left (fun ind_out i => <[i:=i]> ind_out) (seq k n) (pre ++ l)
  = pre ++ seq k n.
Proof.
  revert k pre l. induction n as [|n IH]; intros k pre l Hpre Hl.
  - destruct l; [reflexivity | discriminate].
  - destruct l as [|a l]; [discriminate|]. simpl in Hl.
    cbn [seq fold_left].
    rewrite insert_app_r_alt by lia.
    replace (k - length pre)%nat with 0%nat by lia. cbn [insert list_insert].
    change (pre ++ k :: l) with (pre ++ [k] ++ l). rewrite app_assoc.
    rewrite (IH (S k) (pre ++ [k]) l).
    + rewrite <- app_assoc. reflexivity.
    + rewrite length_app. simpl. lia.
    + lia.
Qed.

Lemma ind_out_eq (N : nat) (ind : list nat) :
  ind_out N ind
  = match ind with
    | [] => seq 0 N
    | _ :: _ => List.filter (fun i => (i <? N)%nat) ind
    end.
Proof.
  unfold ind_out. destruct ind as [|i ind].
  - exact (fill_loop N 0 [] (replicate N 0%nat) eq_refl (length_replicate N 0%nat)).
  - exact (push_back_loop N (i :: ind) []).
Qed.

(** The columns printed by [SolutionHolder::print] for states of size [N]:
    all of [0 .. N-1] when the user gives no index; otherwise the user's
    indices that are below [N], in the user's order and as often as given,
    the others being dropped without notice, so that a list of indices that
    are all out of range selects no column at all.  Every printed column is
    below [N]. *)
Theorem print_columns (N : nat) (ind : list nat) :
  ind_out N ind
  = match ind with
    | [] => seq 0 N
    | _ :: _ => List.filter (fun i => (i <? N)%nat) ind
    end
  /\ Forall (fun i => (i < N)%nat) (ind_out N ind)
  /\ (forall i, i ∈ ind_out N ind <-> (i < N)%nat /\ (ind = [] \/ i ∈ ind)).
Proof.
  split; [apply ind_out_eq|].
  assert (Hin : forall i, i ∈ ind_out N ind <-> (i < N)%nat /\ (ind = [] \/ i ∈ ind)).
  { intros i. rewrite ind_out_eq, list_elem_of_In. destruct ind as [|j ind].
    - rewrite in_seq. split; [intros H; split; [lia | left; reflexivity]|].
      intros [H _]. lia.
    - rewrite filter_In, Nat.ltb_lt, <- list_elem_of_In. split.
      + intros [H1 H2]. split; [exact H2 | right; exact H1].
      + intros [H1 [H2|H2]]; [discriminate | split; assumption]. }
  split; [|exact Hin].
  apply Forall_forall. intros i Hi. apply Hin in Hi. tauto.
Qed.

(** [SolutionHolder::print] fails its assertion exactly when the holder
    has not as many states as times, and prints nothing at all, not even
    the header, for an empty holder. *)
Theorem print_outcome (h : SolutionHolder) (ind : list nat) :
  (print h ind = AssertionFailed <-> length (t h) <> length (x h))
  /\ (print h ind = Printed [] <-> t h = [] /\ x h = []).
Proof.
  unfold print.
  destruct (Nat.eqb_spec (length (t h)) (length (x h))) as [E|E]; cbn [negb].
  - destruct (Nat.eqb_spec (length (t h)) 0) as [E0|E0].
    + split; [split; [discriminate | contradiction]|].
      split; [intros _|reflexivity].
      rewrite E0 in E. destruct (t h), (x h); try discriminate. auto.
    + split; [split; [discriminate | contradiction]|].
      split.
      * intros H. exfalso. injection H as H.
        destruct (t h) as [|t0 ts]; [contradiction E0; reflexivity|].
        cbn [length seq fold_left] in H.
        match type of H with
        | fold_left ?f ?l ?a = [] =>
            assert (Hne : forall l' a', a' <> [] -> fold_left f l' a' <> [])
        end.
        { intros l'. induction l' as [|i l' IH]; intros a' Ha; cbn; [exact Ha|].
          apply IH. intros Hnil. apply app_eq_nil in Hnil as [_ Hnil]. discriminate. }
        refine (Hne _ _ _ H).
        intros Hnil. apply app_eq_nil in Hnil as [_ Hnil]. discriminate.
      * intros [Ht _]. rewrite Ht in E0. contradiction E0. reflexivity.
  - split; [split; [intros _; exact E | reflexivity]|].
    split; [discriminate|]. intros [Ht Hx]. rewrite Ht, Hx in E.
    contradiction E. reflexivity.
Qed.









(** A holder filled by a [Solution] over any run, starting from a holder
    that passes the assertion of [SolutionHolder::print], can be printed:
    the assertion does not fail. *)
Theorem print_after_run (s : Solution) (h : SolutionHolder)
    (steps : list (state_vector * float)) (ind : list nat) :
  print_assertion h ->
  print (Solution_calls s h steps) ind <> AssertionFailed.
Proof.
  intros Hh.
  assert (Hlen : length (t (Solution_calls s h steps))
                 = length (x (Solution_calls s h steps))).
  { revert h Hh. induction steps as [|[x1 t1] steps IH]; intros h Hh; [exact Hh|].
    rewrite ManagerMore.Solution_calls_cons. apply IH.
    unfold print_assertion in *.
    destruct (ManagerProps.Solution_call_cases s h x1 t1) as [E|E]; rewrite E;
      [exact Hh|].
    cbn. rewrite !length_app. cbn. lia. }
  unfold print. rewrite (proj2 (Nat.eqb_eq _ _) Hlen). cbn [negb].
  destruct (length (t (Solution_calls s h steps)) =? 0)%nat; discriminate.
Qed.

Lemma print_after_run_witness :
  print (Solution_calls (Solution_new [1]%float) (mkHolder [] [])
           [([4; 6], 0.5); ([5; 7], 1)]%float) [0%nat]
  <> AssertionFailed.
Proof.
  exact (print_after_run (Solution_new [1]%float) (mkHolder [] [])
           [([4; 6], 0.5); ([5; 7], 1)]%float [0%nat] eq_refl).
Defined.

End PrintingMore.
